(** * ybank.me wallet: the wallet service (services/walletService.ts)

    A shallow embedding of the balance queries and of the transaction-history
    reconstruction [getRecentTransactions], together with the JavaScript and
    ethers built-ins they call, followed by the properties of the design
    specification.

    The embedding then covers the rest of the service ([sendUSDC] with
    [parseUnits], the cached provider, the wallet of a recovery phrase), the
    import form, the payment poll of the charge view and the session
    handlers of the application; their properties come last. *)

From Equations Require Import Equations.
From Stdlib Require Import ZArith NArith QArith Lia Ascii String DecimalString DecimalN DecimalPos.
From Stdlib Require Import Sorted Permutation.
From stdpp Require Import base tactics option list gmap strings.

Local Open Scope string_scope.
Local Open Scope list_scope.
Local Open Scope Z_scope.

(* ===================================================================== *)
(** * JavaScript built-ins *)
(* ===================================================================== *)

(** ** Completions: a call either returns a value or throws.  An [async]
    function's promise is modelled by the completion it settles with:
    fulfilled with a value, or rejected with an error. *)

Definition Error := string.

Inductive completion (A : Type) : Type :=
| Normal (v : A)
| Throw (e : Error).
Arguments Normal {A} v.
Arguments Throw {A} e.

#[global] Instance completion_ret : MRet completion := fun _ v => Normal v.
#[global] Instance completion_bind : MBind completion := fun _ _ f c =>
  match c with
  | Normal v => f v
  | Throw e => Throw e
  end.

(** [promise.catch(handler)] and [try { body } catch (e) { handler }]. *)
Definition catch {A} (c : completion A) (handler : Error -> completion A) : completion A :=
  match c with
  | Normal v => Normal v
  | Throw e => handler e
  end.

(** ** Strings *)

(** [Number.prototype.toString] on a non-negative integer: its decimal digits. *)
Definition Number_toString (n : N) : string :=
  NilZero.string_of_uint (N.to_uint n).

(** [String.prototype.toLowerCase], on the ASCII letters. *)
Definition lower_ascii (c : ascii) : ascii :=
  let n := N_of_ascii c in
  if ((65 <=? n) && (n <=? 90))%N then ascii_of_N (n + 32) else c.

Fixpoint toLowerCase (s : string) : string :=
  match s with
  | EmptyString => EmptyString
  | String c s' => String (lower_ascii c) (toLowerCase s')
  end.

(** ** parseFloat

    The decimal literals without exponent part: optional sign, digits,
    optional fraction.  The result is the exact value of the longest such
    prefix, [None] standing for NaN.  The service only compares the result
    with [0], which rounding to a double does not change for the strings
    [formatUnits] produces with 6 decimals (magnitude at least 10^-6). *)

Definition digit_of (c : ascii) : option N :=
  let n := N_of_ascii c in
  if ((48 <=? n) && (n <=? 57))%N then Some (n - 48)%N else None.

(** Consumes the leading digits of [l]: accumulated value, number of digits
    read so far, and the rest of the input. *)
Fixpoint scan_digits (l : list ascii) (acc : N) (count : nat) : N * nat * list ascii :=
  match l with
  | [] => (acc, count, [])
  | c :: l' =>
      match digit_of c with
      | Some d => scan_digits l' (10 * acc + d)%N (S count)
      | None => (acc, count, l)
      end
  end.

Definition scale10 (k : nat) : positive := Z.to_pos (10 ^ Z.of_nat k).

Definition parseFloat (s : string) : option Q :=
  let l := list_ascii_of_string s in
  let '(negative, l) :=
    match l with
    | c :: l' =>
        if Ascii.eqb c "-" then (true, l')
        else if Ascii.eqb c "+" then (false, l')
        else (false, l)
    | [] => (false, l)
    end in
  let '(whole, nw, rest) := scan_digits l 0%N 0%nat in
  let '(mantissa, nf) :=
    match rest with
    | c :: rest' =>
        if Ascii.eqb c "."
        then let '(m, nf, _) := scan_digits rest' whole 0%nat in (m, nf)
        else (whole, 0%nat)
    | [] => (whole, 0%nat)
    end in
  if (nw + nf =? 0)%nat then None
  else Some (Qmake (if negative then - Z.of_N mantissa else Z.of_N mantissa) (scale10 nf)).

(** [parseFloat(s) > 0]; a comparison with NaN is false. *)
Definition gt0 (x : option Q) : bool :=
  match x with
  | Some q => (0 <? Qnum q)%Z
  | None => false
  end.

(** ** Arrays *)

(** [arr.slice(start, end)]. *)
Definition slice {A} (arr : list A) (start stop : nat) : list A :=
  take (stop - start) (drop start arr).

(** [arr.sort(compare)]: the sort is stable and places [a] before [b] when
    [compare a b < 0]; insertion from the right keeps equal elements in their
    original order. *)
Fixpoint sort_insert {A} (compare : A -> A -> Z) (x : A) (sorted : list A) : list A :=
  match sorted with
  | [] => [x]
  | y :: rest =>
      if compare x y <=? 0 then x :: y :: rest
      else y :: sort_insert compare x rest
  end.

Definition Array_sort {A} (compare : A -> A -> Z) (arr : list A) : list A :=
  foldr (sort_insert compare) [] arr.

(** ** Map and Set: both iterate in insertion order.  Setting an existing key
    replaces its value in place; adding an existing element changes nothing. *)

Fixpoint Map_set {V} (key : string) (value : V) (m : list (string * V)) : list (string * V) :=
  match m with
  | [] => [(key, value)]
  | (k, v) :: m' =>
      if String.eqb k key then (k, value) :: m'
      else (k, v) :: Map_set key value m'
  end.

Definition Map_values {V} (m : list (string * V)) : list V := map snd m.

Fixpoint Set_add (x : Z) (s : list Z) : list Z :=
  match s with
  | [] => [x]
  | y :: s' => if y =? x then s else y :: Set_add x s'
  end.

(** [new Set(arr)], spread back into an array. *)
Definition Set_of (arr : list Z) : list Z :=
  foldl (fun s x => Set_add x s) [] arr.

(** ** Promise.all

    The promises of one [Promise.all] are in flight together and settle in an
    order the program does not control.  A promise is modelled by what happens
    when it settles: its continuation runs against the state it shares with
    the others and yields a completion.  The environment's choices pick, at
    each step, which of the pending promises settles next. *)

Section Promises.
Context {St A : Type}.

Definition Promise : Type := St -> St * completion A.

(** The order in which [pending] settles under the given choices: the
    [k]-th choice selects among the promises still pending. *)
Fixpoint settle_order (choices : list nat) (fuel : nat) (pending : list nat) : list nat :=
  match fuel with
  | O => []
  | S fuel' =>
      let k := (hd 0%nat choices mod length pending)%nat in
      match pending !! k with
      | Some i => i :: settle_order (tl choices) fuel' (delete k pending)
      | None => []
      end
  end.

(** Each fulfilment is stored at the position of its promise; the first
    rejection rejects the whole [Promise.all]. *)
Fixpoint settle_all (order : list nat) (promises : list Promise)
         (st : St) (values : gmap nat A) : St * completion (gmap nat A) :=
  match order with
  | [] => (st, Normal values)
  | i :: order' =>
      match promises !! i with
      | None => settle_all order' promises st values
      | Some p =>
          match p st with
          | (st', Normal v) => settle_all order' promises st' (<[i := v]> values)
          | (st', Throw e) => (st', Throw e)
          end
      end
  end.

Definition Promise_all (choices : list nat) (promises : list Promise) (st : St)
  : St * completion (list A) :=
  let n := length promises in
  let order := settle_order choices n (seq 0 n) in
  match settle_all order promises st ∅ with
  | (st', Normal values) => (st', Normal (omap (fun i => values !! i) (seq 0 n)))
  | (st', Throw e) => (st', Throw e)
  end.
End Promises.

(** A promise without effect on shared state. *)
Definition settled {A} (c : completion A) : @Promise unit A := fun st => (st, c).

(* ===================================================================== *)
(** * ethers built-ins *)
(* ===================================================================== *)

(** ** formatUnits(value, decimals): the fixed-point rendering of an integer.

    The digits of [|value|] are padded on the left with zeros until there is a
    whole digit, the decimal point is inserted [decimals] places from the
    right, and redundant zeros are trimmed on both sides, leaving at least one
    digit on each side of the point. *)

Fixpoint trim_leading_zeros (l : list ascii) : list ascii :=
  match l with
  | c :: ((_ :: _) as l') => if Ascii.eqb c "0" then trim_leading_zeros l' else l
  | _ => l
  end.

Definition trim_trailing_zeros (l : list ascii) : list ascii :=
  rev (trim_leading_zeros (rev l)).

Definition formatUnits (value : Z) (decimals : nat) : string :=
  let negative := if (value <? 0)%Z then ["-"%char] else [] in
  let str := list_ascii_of_string (Number_toString (Z.abs_N value)) in
  match decimals with
  | O => string_of_list_ascii (negative ++ str)
  | S _ =>
      let str := replicate (S decimals - length str) "0"%char ++ str in
      let index := (length str - decimals)%nat in
      string_of_list_ascii
        (negative ++ trim_leading_zeros (take index str) ++ "."%char
                  :: trim_trailing_zeros (drop index str))
  end.

Definition formatEther (wei : Z) : string := formatUnits wei 18.

(** ** The read-API: the JSON-RPC provider and the USDC contract bound to it *)

(** A decoded [Transfer(from, to, value)] event log; [args] is
    [[from, to, value]]. *)
Record EventLog := {
  transactionHash : string;
  index : N;
  blockNumber : Z;
  args_0 : string;
  args_1 : string;
  args_2 : N;
}.

Module Block.
Record t := { timestamp : Z }.
End Block.

(** [contract.filters.Transfer(from, to)]; [None] is the wildcard [null]. *)
Record Filter := Transfer { topic_from : option string; topic_to : option string }.

Record ReadAPI := {
  getBlockNumber : completion Z;
  getBlock : Z -> completion (option Block.t);
  getBalance : string -> completion Z;
  balanceOf : string -> completion Z;
  queryFilter : Filter -> Z -> Z -> completion (list EventLog);
}.

(** The completion orders of the parallel groups of one call. *)
Record Scheduler := {
  logs_settle : Filter -> nat -> list nat;
  both_settle : list nat;
  blocks_settle : nat -> list nat;
}.

(* ===================================================================== *)
(** * types.ts *)
(* ===================================================================== *)

Inductive Direction := type_in | type_out.
Inductive Status := confirmed | pending | failed.

Record Transaction := {
  hash : string;
  type : Direction;
  amount : string;
  timestamp : Z;
  status : Status;
  to : option string;
  from : option string;
}.

(* ===================================================================== *)
(** * services/walletService.ts *)
(* ===================================================================== *)

Module Range.
Record t := { from : Z; to : Z }.
End Range.

Definition SCAN_RANGE : Z := 7500.
Definition CHUNK_SIZE : Z := 2500.
Definition BATCH_SIZE : nat := 3.
Definition requestChunkSize : nat := 10.

(** [for (let i = fromBlock; i < currentBlock; i += CHUNK_SIZE) ranges.push(...)] *)
Equations? ranges_from (currentBlock : Z) (i : Z) : list Range.t
  by wf (Z.to_nat (currentBlock - i)) lt :=
  ranges_from currentBlock i with decide (i < currentBlock) := {
    | left _ :=
        {| Range.from := i; Range.to := Z.min (i + CHUNK_SIZE - 1) currentBlock |}
          :: ranges_from currentBlock (i + CHUNK_SIZE);
    | right _ := [] }.
Proof. unfold CHUNK_SIZE. lia. Qed.

(** The key of the deduplication map. *)
Definition log_key (log : EventLog) : string :=
  transactionHash log ++ "-" ++ Number_toString (index log).

Section Service.
Variable api : ReadAPI.
Variable sched : Scheduler.
Variable Date_now : nat -> Z.

Definition getETHBalance (address : string) : completion string :=
  catch (balance ← getBalance api address;
         Normal (formatEther balance))
        (fun error => Normal "0.00").

Definition getUSDCBalance (address : string) : completion string :=
  catch (let decimals := 6%nat in
         balance ← balanceOf api address;
         Normal (formatUnits balance decimals))
        (fun error => Normal "0.00").

(** One sub-range request: a failure contributes no logs. *)
Definition query_range (filter : Filter) (range : Range.t) : @Promise unit (list EventLog) :=
  settled (catch (queryFilter api filter (Range.from range) (Range.to range))
                 (fun e => Normal [])).

(** The batch loop of [fetchLogsChunked]. *)
Equations? fetch_batches (filter : Filter) (ranges : list Range.t) (i : nat)
           (allLogs : list EventLog) : completion (list EventLog)
  by wf (length ranges - i)%nat lt :=
  fetch_batches filter ranges i allLogs with decide (i < length ranges)%nat := {
    | left _ with Promise_all (logs_settle sched filter i)
                    (map (query_range filter) (slice ranges i (i + BATCH_SIZE))) tt := {
        | (_, Normal results) :=
            fetch_batches filter ranges (i + BATCH_SIZE)
                          (foldl (fun all chunk => all ++ chunk) allLogs results);
        | (_, Throw e) := Throw e };
    | right _ := Normal allLogs }.
Proof. unfold BATCH_SIZE. lia. Qed.

Definition fetchLogsChunked (fromBlock currentBlock : Z) (filter : Filter)
  : completion (list EventLog) :=
  let ranges := ranges_from currentBlock fromBlock in
  fetch_batches filter ranges 0 [].

(** One block-detail request; its continuation records the timestamp. *)
Definition fetch_block (bn : Z) : @Promise (gmap Z Z) unit := fun blockMap =>
  match getBlock api bn with
  | Normal (Some block) => (<[bn := Block.timestamp block * 1000]> blockMap, Normal tt)
  | Normal None => (blockMap, Normal tt)
  | Throw e => (blockMap, Normal tt)
  end.

Equations? fetch_timestamps (blockNumbers : list Z) (i : nat) (blockMap : gmap Z Z)
  : completion (gmap Z Z)
  by wf (length blockNumbers - i)%nat lt :=
  fetch_timestamps blockNumbers i blockMap with decide (i < length blockNumbers)%nat := {
    | left _ with Promise_all (blocks_settle sched i)
                    (map fetch_block (slice blockNumbers i (i + requestChunkSize)))
                    blockMap := {
        | (blockMap', Normal _) :=
            fetch_timestamps blockNumbers (i + requestChunkSize) blockMap';
        | (_, Throw e) := Throw e };
    | right _ := Normal blockMap }.
Proof. unfold requestChunkSize. lia. Qed.

(** The callback of [uniqueLogs.map], with the timestamp it resolved. *)
Definition toTransaction (address : string) (log : EventLog) (ts : Z) : Transaction :=
  let amount := formatUnits (Z.of_N (args_2 log)) 6 in
  let isIn := String.eqb (toLowerCase (args_1 log)) (toLowerCase address) in
  {| hash := transactionHash log;
     type := if isIn then type_in else type_out;
     amount := amount;
     timestamp := ts;
     status := confirmed;
     from := Some (args_0 log);
     to := Some (args_1 log) |}.

(** [uniqueLogs.map(log => ...)]; [reads] counts the calls of [Date.now()]
    made so far, one for each log whose block has no usable timestamp. *)
Fixpoint map_logs (address : string) (blockMap : gmap Z Z) (reads : nat)
         (logs : list EventLog) : list Transaction :=
  match logs with
  | [] => []
  | log :: logs' =>
      match blockMap !! blockNumber log with
      | Some ts =>
          if ts =? 0
          then toTransaction address log (Date_now reads)
                 :: map_logs address blockMap (S reads) logs'
          else toTransaction address log ts :: map_logs address blockMap reads logs'
      | None =>
          toTransaction address log (Date_now reads)
            :: map_logs address blockMap (S reads) logs'
      end
  end.

Definition unique_logs (allLogs : list EventLog) : list EventLog :=
  let uniqueLogsMap := foldl (fun m log => Map_set (log_key log) log m) [] allLogs in
  Map_values uniqueLogsMap.

(** The body of the [try] block. *)
Definition reconstruct (address : string) : completion (list Transaction) :=
  currentBlock ← getBlockNumber api;
  let fromBlock := Z.max 0 (currentBlock - SCAN_RANGE) in
  let filterIn := Transfer None (Some address) in
  let filterOut := Transfer (Some address) None in
  fetched ← snd (Promise_all (both_settle sched)
                   [settled (fetchLogsChunked fromBlock currentBlock filterIn);
                    settled (fetchLogsChunked fromBlock currentBlock filterOut)] tt);
  match fetched with
  | logsIn :: logsOut :: _ =>
      let allLogs := logsIn ++ logsOut in
      let uniqueLogs := unique_logs allLogs in
      let blockNumbers := Set_of (map blockNumber uniqueLogs) in
      blockMap ← fetch_timestamps blockNumbers 0 ∅;
      let transactions :=
        filter (fun tx => gt0 (parseFloat (amount tx)) = true)
               (map_logs address blockMap 0 uniqueLogs) in
      Normal (Array_sort (fun a b => timestamp b - timestamp a) transactions)
  | _ => Throw "TypeError: undefined is not iterable"
  end.

Definition getRecentTransactions (address : string) : completion (list Transaction) :=
  catch (reconstruct address) (fun error => Normal []).
End Service.

(* ===================================================================== *)
(** * Scenarios: a ledger served faithfully by the read-API *)
(* ===================================================================== *)

Definition topic_matches (topic : option string) (addr : string) : bool :=
  match topic with
  | Some a => String.eqb (toLowerCase a) (toLowerCase addr)
  | None => true
  end.

Definition filter_matches (f : Filter) (log : EventLog) : bool :=
  topic_matches (topic_from f) (args_0 log) && topic_matches (topic_to f) (args_1 log).

(** A read-API over a fixed ledger: head block [head], the transfer events
    [events], blocks committed at [block_time]; requests for which [down]
    answers [true] fail, as do the block lookups in [lost]. *)
Definition ledger_api (head : Z) (events : list EventLog) (block_time : Z -> Z)
           (down : Filter -> Z -> Z -> bool) (lost : Z -> bool) : ReadAPI :=
  {| getBlockNumber := Normal head;
     getBlock bn :=
       if lost bn then Throw "timeout"
       else Normal (Some {| Block.timestamp := block_time bn |});
     getBalance _ := Throw "unavailable";
     balanceOf _ := Throw "unavailable";
     queryFilter f lo hi :=
       if down f lo hi then Throw "rate limited"
       else Normal (List.filter
                      (fun log => filter_matches f log
                                  && (lo <=? blockNumber log) && (blockNumber log <=? hi))
                      events) |}.

Definition fifo : Scheduler :=
  {| logs_settle _ _ := []; both_settle := []; blocks_settle _ := [] |}.

Definition lifo : Scheduler :=
  {| logs_settle _ _ := [2; 1]%nat;
     both_settle := [1]%nat;
     blocks_settle _ := [9; 8; 7; 6; 5; 4; 3; 2; 1]%nat |}.

(** A read-API that is unreachable. *)
Definition offline_api : ReadAPI :=
  {| getBlockNumber := Throw "network error";
     getBlock _ := Throw "network error";
     getBalance _ := Throw "network error";
     balanceOf _ := Throw "network error";
     queryFilter _ _ _ := Throw "network error" |}.

Definition alice : string := "0xA11CE00000000000000000000000000000000001".
Definition alice_lower : string := "0xa11ce00000000000000000000000000000000001".
Definition bob : string := "0xb0b0000000000000000000000000000000000002".

Definition up (f : Filter) (lo hi : Z) : bool := false.
Definition found (bn : Z) : bool := false.
Definition block_time (bn : Z) : Z := 1700000000 + 2 * bn.
Definition wall_clock (reads : nat) : Z := 1800000000000 + Z.of_nat reads.

(** The end-to-end scenario of the specification: one inbound event of raw
    amount 5,000,000 at block 999,000, head block 1,000,000. *)
Definition inbound_5 : EventLog :=
  {| transactionHash := "0xfeed"; index := 3; blockNumber := 999000;
     args_0 := bob; args_1 := alice_lower; args_2 := 5000000 |}.

(** The same transfer committed in the head block itself. *)
Definition inbound_at_head : EventLog :=
  {| transactionHash := "0xfeed"; index := 3; blockNumber := 1000000;
     args_0 := bob; args_1 := alice_lower; args_2 := 5000000 |}.

(** A ledger with head block 10,000: the window is [2500, 10000]. *)
Definition received : EventLog :=
  {| transactionHash := "0xaaa1"; index := 0; blockNumber := 3000;
     args_0 := bob; args_1 := alice_lower; args_2 := 5000000 |}.
Definition zero_received : EventLog :=
  {| transactionHash := "0xaaa4"; index := 7; blockNumber := 3500;
     args_0 := bob; args_1 := alice_lower; args_2 := 0 |}.
Definition sent : EventLog :=
  {| transactionHash := "0xaaa2"; index := 1; blockNumber := 6000;
     args_0 := alice_lower; args_1 := bob; args_2 := 1250000 |}.
Definition self_transfer : EventLog :=
  {| transactionHash := "0xaaa3"; index := 2; blockNumber := 8000;
     args_0 := alice_lower; args_1 := alice_lower; args_2 := 2000000 |}.
Definition zero_self_transfer : EventLog :=
  {| transactionHash := "0xaaa5"; index := 4; blockNumber := 8500;
     args_0 := alice_lower; args_1 := alice_lower; args_2 := 0 |}.

(** The middle sub-range of that window is rate limited: for both filters,
    or for the recipient filter only. *)
Definition middle_down (f : Filter) (lo hi : Z) : bool := (lo =? 5000) && (hi =? 7499).

Definition recipient_middle_down (f : Filter) (lo hi : Z) : bool :=
  match topic_from f with
  | None => (lo =? 5000) && (hi =? 7499)
  | Some _ => false
  end.

(** The details of blocks 3000 and 3500 cannot be fetched. *)
Definition early_lost (bn : Z) : bool := (bn =? 3000) || (bn =? 3500).

Definition busy_api : ReadAPI :=
  ledger_api 10000 [received; zero_received; sent; self_transfer; zero_self_transfer]
             block_time middle_down early_lost.

(* ===================================================================== *)
(** * Notions used by the statements *)
(* ===================================================================== *)

(** The value of a digit and of a run of digits read after [acc]. *)
Definition digit_value (c : ascii) : N := (N_of_ascii c - 48)%N.

Definition digits_value (acc : N) (l : list ascii) : N :=
  foldl (fun a c => (10 * a + digit_value c)%N) acc l.

Definition is_digit (c : ascii) : Prop := digit_of c = Some (digit_value c).

(** What a sub-range contributes: the logs of its query, none if it failed. *)
Definition chunk_logs (api : ReadAPI) (filter : Filter) (range : Range.t) : list EventLog :=
  match queryFilter api filter (Range.from range) (Range.to range) with
  | Normal logs => logs
  | Throw _ => []
  end.

(** The sub-ranges queried for head block [head]. *)
Definition queried_ranges (head : Z) : list Range.t :=
  ranges_from head (Z.max 0 (head - SCAN_RANGE)).

Definition covers (range : Range.t) (block : Z) : bool :=
  (Range.from range <=? block) && (block <=? Range.to range).

(** The logs one filter contributes over the window, and both filters merged. *)
Definition window_logs (api : ReadAPI) (head : Z) (filter : Filter) : list EventLog :=
  concat (chunk_logs api filter <$> queried_ranges head).

Definition merged_logs (api : ReadAPI) (head : Z) (address : string) : list EventLog :=
  window_logs api head (Transfer None (Some address))
  ++ window_logs api head (Transfer (Some address) None).

(** The timestamp a block lookup delivers, in milliseconds. *)
Definition resolved (api : ReadAPI) (bn : Z) : option Z :=
  match getBlock api bn with
  | Normal (Some block) => Some (Block.timestamp block * 1000)
  | _ => None
  end.

Definition record_block (api : ReadAPI) (bn : Z) (blockMap : gmap Z Z) : gmap Z Z :=
  match resolved api bn with
  | Some ts => <[bn := ts]> blockMap
  | None => blockMap
  end.

Definition block_times (api : ReadAPI) (blockNumbers : list Z) : gmap Z Z :=
  foldl (fun m bn => record_block api bn m) ∅ blockNumbers.

(** The list the call returns once the head block is known. *)
Definition history (api : ReadAPI) (Date_now : nat -> Z) (address : string) (head : Z)
  : list Transaction :=
  let uniqueLogs := unique_logs (merged_logs api head address) in
  let blockMap := block_times api (Set_of (blockNumber <$> uniqueLogs)) in
  Array_sort (fun a b => timestamp b - timestamp a)
    (filter (fun tx => gt0 (parseFloat (amount tx)) = true)
            (map_logs Date_now address blockMap 0 uniqueLogs)).

(** The ledger identity of an event: (transaction identifier, event position). *)
Definition event_id (log : EventLog) : string * N := (transactionHash log, index log).

(** The order of the returned list: no entry is older than a later one. *)
Definition newer_first (a b : Transaction) : Prop := timestamp b <= timestamp a.

(** The deduplicated events of a call that found head block [head]. *)
Definition surviving (api : ReadAPI) (head : Z) (address : string) : list EventLog :=
  unique_logs (merged_logs api head address).

(** The timestamp [uniqueLogs.map] gives an event: the block's, or a reading
    of the clock when the block map has no usable entry. *)
Definition stamped (Date_now : nat -> Z) (blockMap : gmap Z Z) (log : EventLog) (ts : Z) : Prop :=
  match blockMap !! blockNumber log with
  | Some t => if t =? 0 then exists k, ts = Date_now k else ts = t
  | None => exists k, ts = Date_now k
  end.

Definition derived_from (Date_now : nat -> Z) (address : string) (blockMap : gmap Z Z)
           (log : EventLog) (tx : Transaction) : Prop :=
  exists ts, tx = toTransaction address log ts /\ stamped Date_now blockMap log ts.

(** The read-API in which every failed sub-range query answers with no
    events instead. *)
Definition recovered (api : ReadAPI) : ReadAPI :=
  {| getBlockNumber := getBlockNumber api;
     getBlock := getBlock api;
     getBalance := getBalance api;
     balanceOf := balanceOf api;
     queryFilter f lo hi :=
       Normal (match queryFilter api f lo hi with
               | Normal logs => logs
               | Throw _ => []
               end) |}.

(* ===================================================================== *)
(** * Sending: [parseUnits], [sendUSDC] and the cached provider *)
(* ===================================================================== *)

(** ** Errors with structure

    [sendUSDC] inspects the error it catches: [error.code],
    [error.info.error.code] and [error.message].  A field that is missing
    (or, for [info_error_code], a chain [error.info && error.info.error] that
    is falsy) is [None]. *)
Record JsError := {
  code : option string;
  info_error_code : option Z;
  message : option string;
}.

(** [new Error(message)]. *)
Definition new_Error (msg : string) : JsError :=
  {| code := None; info_error_code := None; message := Some msg |}.

(** An ethers error made by [assert] and [assertArgument]: it carries a code;
    the message starts with the given text (ethers appends the details). *)
Definition makeError (msg code : string) : JsError :=
  {| code := Some code; info_error_code := None; message := Some msg |}.

Inductive attempt (A : Type) : Type :=
| Done (v : A)
| Failed (e : JsError).
Arguments Done {A} v.
Arguments Failed {A} e.

(** ** parseUnits(value, decimals), through [FixedNumber.fromString] with
    the format [{ decimals, width: 512 }] (signed). *)

(** The longest run of digits at the head of [l], and what follows it. *)
Fixpoint span_digits (l : list ascii) : list ascii * list ascii :=
  match l with
  | [] => ([], [])
  | c :: l' =>
      match digit_of c with
      | Some _ => let '(run, rest) := span_digits l' in (c :: run, rest)
      | None => ([], l)
      end
  end.

Definition all_digits (l : list ascii) : bool :=
  forallb (fun c => match digit_of c with Some _ => true | None => false end) l.

(** The match of [value] against the pattern of [fromString]: an optional
    minus sign, a run of digits, an optional point, a run of digits, and
    nothing else.  The three groups, the first one as a flag. *)
Definition match_number (l : list ascii) : option (bool * list ascii * list ascii) :=
  let '(negative, l) :=
    match l with
    | c :: l' => if Ascii.eqb c "-" then (true, l') else (false, l)
    | [] => (false, l)
    end in
  let '(whole, rest) := span_digits l in
  let decimal :=
    match rest with
    | c :: rest' => if Ascii.eqb c "." then rest' else rest
    | [] => rest
    end in
  if all_digits decimal then Some (negative, whole, decimal) else None.

(** [while (decimal.length < decimals) { decimal += "0000"; }] *)
Definition pad_zeros (decimal : list ascii) (decimals : nat) : list ascii :=
  decimal ++ replicate (4 * ((decimals - length decimal + 3) / 4)) "0"%char.

(** Only zeros, possibly none. *)
Definition all_zeros (l : list ascii) : bool := forallb (Ascii.eqb "0") l.

(** [BigInt(sign + digits)] on a non-empty run of digits. *)
Definition BigInt (negative : bool) (digits : list ascii) : Z :=
  let n := Z.of_N (digits_value 0 digits) in
  if negative then - n else n.

(** [checkValue] for a signed format of width 512. *)
Definition checkValue (val : Z) : bool :=
  (- 2 ^ 511 <=? val) && (val <? 2 ^ 511).

Definition parseUnits (value : string) (decimals : nat) : attempt Z :=
  match match_number (list_ascii_of_string value) with
  | None => Failed (makeError "invalid FixedNumber string value" "INVALID_ARGUMENT")
  | Some (negative, whole, decimal) =>
      if (length whole + length decimal =? 0)%nat
      then Failed (makeError "invalid FixedNumber string value" "INVALID_ARGUMENT")
      else
        let whole := match whole with [] => ["0"%char] | _ => whole end in
        let decimal := pad_zeros decimal decimals in
        if all_zeros (drop decimals decimal) then
          let decimal := take decimals decimal in
          let value := BigInt negative (whole ++ decimal) in
          if checkValue value then Done value
          else Failed (makeError "overflow" "NUMERIC_FAULT")
        else Failed (makeError "too many decimals for format" "NUMERIC_FAULT")
  end.

(** ** sendUSDC *)

(** What [contract.transfer] resolves to: the submitted transaction, whose
    [wait()] settles when it is confirmed or found reverted. *)
Module TransactionResponse.
Record t := { hash : string; wait : attempt unit }.
End TransactionResponse.

(** The USDC contract bound to the signing wallet. *)
Record Signer := { transfer : string -> Z -> attempt TransactionResponse.t }.

(** The requests a call has made of the contract, oldest first. *)
Inductive Request :=
| transfer_request (to : string) (amount : Z)
| wait_request (hash : string).

(** The [catch] block of [sendUSDC]: the error thrown in place of the one
    caught. *)
Definition send_error (error : JsError) : JsError :=
  if bool_decide (code error = Some "INSUFFICIENT_FUNDS")
     || bool_decide (info_error_code error = Some (-32003))
  then new_Error "Insufficient ETH for gas fees. Please deposit Base ETH."
  else if bool_decide (code error = Some "CALL_EXCEPTION")
  then new_Error "Transaction failed. Ensure you have enough USDC and ETH."
  else new_Error (match message error with
                  | Some (String c m) => String c m
                  | _ => "Transaction failed. Please check your connection and balance."
                  end).

Definition sendUSDC (wallet : Signer) (to amount : string) : list Request * attempt string :=
  let decimals := 6%nat in
  match parseUnits amount decimals with
  | Failed e => ([], Failed e)
  | Done amountInUnits =>
      match transfer wallet to amountInUnits with
      | Failed error => ([transfer_request to amountInUnits], Failed (send_error error))
      | Done tx =>
          let requests :=
            [transfer_request to amountInUnits; wait_request (TransactionResponse.hash tx)] in
          match TransactionResponse.wait tx with
          | Failed error => (requests, Failed (send_error error))
          | Done _ => (requests, Done (TransactionResponse.hash tx))
          end
      end
  end.

(** ** getProvider

    The module variable [providerInstance] and the providers constructed so
    far; a provider is referred to by its position among them. *)
Record JsonRpcProvider := {
  url : string;
  network : Z;
  staticNetwork : bool;
  batchMaxCount : Z;
}.

Record ProviderModule := {
  providerInstance : option nat;
  constructed : list JsonRpcProvider;
}.

Definition getProvider (m : ProviderModule) : nat * ProviderModule :=
  match providerInstance m with
  | Some provider => (provider, m)
  | None =>
      let provider := length (constructed m) in
      (provider,
       {| providerInstance := Some provider;
          constructed := constructed m
            ++ [{| url := "https://1rpc.io/base"; network := 8453;
                   staticNetwork := true; batchMaxCount := 1 |}] |})
  end.

(** The module as loaded, and [n] calls in a row with the references they
    return. *)
Definition module_loaded : ProviderModule :=
  {| providerInstance := None; constructed := [] |}.

Fixpoint getProvider_times (n : nat) (m : ProviderModule) : list nat * ProviderModule :=
  match n with
  | O => ([], m)
  | S n' =>
      let '(provider, m') := getProvider m in
      let '(providers, m'') := getProvider_times n' m' in
      (provider :: providers, m'')
  end.

(** ** Notions used by the statements on amounts *)

(** The characters of a decimal literal around its digits: the sign, and the
    point with the decimals after it. *)
Definition sign_chars (negative : bool) : list ascii :=
  if negative then ["-"%char] else [].

Definition point_chars (point : bool) (decimal : list ascii) : list ascii :=
  if point then "."%char :: decimal else [].

(** A decimal literal: sign, whole digits, and the point with the decimals. *)
Definition literal (negative : bool) (whole : list ascii) (point : bool)
           (decimal : list ascii) : string :=
  string_of_list_ascii (sign_chars negative ++ whole ++ point_chars point decimal).

(** The number of units a literal denotes at [decimals] places, its decimals
    beyond them left out. *)
Definition units_of (negative : bool) (whole decimal : list ascii) (decimals : nat) : Z :=
  let n := Z.of_N (digits_value 0 whole * 10 ^ N.of_nat decimals
                   + digits_value 0 (take decimals decimal)
                     * 10 ^ N.of_nat (decimals - length decimal))%N in
  if negative then - n else n.

(** ** Wallets for the scenarios *)

(** Every transfer is accepted and confirmed. *)
Definition confirming_wallet : Signer :=
  {| transfer to amount :=
       Done {| TransactionResponse.hash := "0x5e";
               TransactionResponse.wait := Done tt |} |}.

(** Every transfer is accepted and then found reverted. *)
Definition reverting_wallet : Signer :=
  {| transfer to amount :=
       Done {| TransactionResponse.hash := "0x5e";
               TransactionResponse.wait :=
                 Failed (makeError "transaction execution reverted" "CALL_EXCEPTION") |} |}.

(** A read-API whose USDC contract reports 12.5 USDC for every account. *)
Definition funded_api : ReadAPI :=
  {| getBlockNumber := getBlockNumber offline_api;
     getBlock := getBlock offline_api;
     getBalance := getBalance offline_api;
     balanceOf address := Normal 12500000;
     queryFilter := queryFilter offline_api |}.

(* ===================================================================== *)
(** * Wallets from recovery phrases *)
(* ===================================================================== *)

(** An [HDNodeWallet]: its address and the provider it is connected to. *)
Record HDNodeWallet := {
  wallet_address : string;
  wallet_provider : option nat;
}.

(** The phrase check of ethers.  [Wallet.fromPhrase] derives the wallet or
    throws when the phrase is no valid mnemonic; [Mnemonic.isValidMnemonic]
    runs the same check inside a [try] and answers whether it passed. *)
Section Mnemonics.
Variable fromPhrase : string -> completion HDNodeWallet.

Definition isValidMnemonic (phrase : string) : bool :=
  match fromPhrase phrase with
  | Normal _ => true
  | Throw _ => false
  end.

Definition validateMnemonic (phrase : string) : bool := isValidMnemonic phrase.

Definition getWalletFromMnemonic (phrase : string) (m : ProviderModule)
  : completion HDNodeWallet * ProviderModule :=
  match fromPhrase phrase with
  | Throw e => (Throw e, m)
  | Normal wallet =>
      let '(provider, m') := getProvider m in
      (Normal {| wallet_address := wallet_address wallet;
                 wallet_provider := Some provider |}, m')
  end.
End Mnemonics.

(* ===================================================================== *)
(** * components/AuthViews.tsx: the import form *)
(* ===================================================================== *)

(** White space as [trim] and the class of white space in patterns see it,
    among the code units below 256: tab, line feed, vertical tab, form feed,
    carriage return, space and no-break space. *)
Definition is_space (c : ascii) : bool :=
  let n := N_of_ascii c in
  (((9 <=? n) && (n <=? 13)) || (n =? 32) || (n =? 160))%N.

Fixpoint trimStart (l : list ascii) : list ascii :=
  match l with
  | c :: l' => if is_space c then trimStart l' else l
  | [] => []
  end.

(** [String.prototype.trim]. *)
Definition String_trim (l : list ascii) : list ascii :=
  rev (trimStart (rev (trimStart l))).

(** [s.replace(pattern, " ")] for the global pattern of one or more white
    space characters: every maximal run of white space becomes one space.
    [in_run] tells that the previous character was white space. *)
Fixpoint replace_spaces (in_run : bool) (l : list ascii) : list ascii :=
  match l with
  | [] => []
  | c :: l' =>
      if is_space c
      then if in_run then replace_spaces true l' else " "%char :: replace_spaces true l'
      else c :: replace_spaces false l'
  end.

Module ImportWalletView.

Definition cleanPhrase (phrase : string) : string :=
  string_of_list_ascii (replace_spaces false (String_trim (list_ascii_of_string phrase))).

(** What the form does with a submitted phrase. *)
Inductive Outcome :=
| onImport (phrase : string)
| setError (error : string).

Definition handleSubmit (fromPhrase : string -> completion HDNodeWallet) (phrase : string)
  : Outcome :=
  let cleanPhrase := cleanPhrase phrase in
  if validateMnemonic fromPhrase cleanPhrase
  then onImport cleanPhrase
  else setError "Invalid recovery phrase. Please ensure you entered all 12 words correctly.".

End ImportWalletView.

(* ===================================================================== *)
(** * components/ActionViews.tsx: waiting for the payment of a charge *)
(* ===================================================================== *)

Module ChargeView.

Inductive Step := step_input | step_loading | step_qr | step_success.

(** The hash [handleCharge] records before showing the code: that of the
    newest entry of the history, [null] when there is none. *)
Definition latestHash (currentTxs : list Transaction) : option string :=
  match currentTxs with
  | tx :: _ => Some (hash tx)
  | [] => None
  end.

Definition is_in (tx : Transaction) : bool :=
  match type tx with
  | type_in => true
  | type_out => false
  end.

(** One poll: the step after [checkPayment] has run on the outcome of
    [getRecentTransactions]. *)
Definition checkPayment (fetched : completion (list Transaction))
           (initialTxHash : option string) (step : Step) : Step :=
  match fetched with
  | Throw _ => step
  | Normal txs =>
      match txs with
      | latestTx :: _ =>
          let step :=
            if bool_decide (Some (hash latestTx) <> initialTxHash) && is_in latestTx
            then step_success else step in
          if bool_decide (initialTxHash = None) && is_in latestTx
          then step_success else step
      | [] => step
      end
  end.

End ChargeView.

(* ===================================================================== *)
(** * App.tsx: the session handlers *)
(* ===================================================================== *)

(** Each handler is modelled run to completion, as a function of the state
    of the component, the local storage and the provider module.  Writes to
    the local storage are taken to succeed. *)
Module App.

Inductive ViewState :=
| LOGIN | SETUP | WALLET_CHOICE | IMPORT | DASHBOARD
| SEND | RECEIVE | PAY | CHARGE | SETTINGS.

Record WalletState := {
  address : string;
  mnemonic : option string;
  balance : string;
  ethBalance : string;
  transactions : list Transaction;
}.

Record State := {
  view : ViewState;
  wallet : option HDNodeWallet;
  walletState : WalletState;
  isLoading : bool;
  isRefreshing : bool;
  showLogoutModal : bool;
  localStorage : gmap string string;
  providers : ProviderModule;
}.

(** The state of the component when it mounts. *)
Definition mounted (storage : gmap string string) : State :=
  {| view := LOGIN;
     wallet := None;
     walletState := {| address := EmptyString; mnemonic := None; balance := "0.00";
                       ethBalance := "0.00"; transactions := [] |};
     isLoading := false;
     isRefreshing := false;
     showLogoutModal := false;
     localStorage := storage;
     providers := module_loaded |}.

(** What the network answers while a handler runs. *)
Record World := {
  api : ReadAPI;
  sched : Scheduler;
  Date_now : nat -> Z;
}.

Section Handlers.
Variable fromPhrase : string -> completion HDNodeWallet.

(** The three lookups of [initializeWallet] and [handleRefresh], awaited
    together: the balances and the history, or the first rejection. *)
Definition fetch_all (world : World) (address : string)
  : completion (string * string * list Transaction) :=
  usdc ← getUSDCBalance (api world) address;
  eth ← getETHBalance (api world) address;
  history ← getRecentTransactions (api world) (sched world) (Date_now world) address;
  Normal (usdc, eth, history).

Definition initializeWallet (world : World) (mnemonic : string) (s : State) : State :=
  match getWalletFromMnemonic fromPhrase mnemonic (providers s) with
  | (Normal newWallet, providers') =>
      let address := wallet_address newWallet in
      let prev := walletState s in
      let shown :=
        {| address := address;
           mnemonic := Some mnemonic;
           balance := if bool_decide (balance prev <> "0.00") then balance prev else "0.00";
           ethBalance :=
             if bool_decide (ethBalance prev <> "0.00") then ethBalance prev else "0.00";
           transactions := transactions prev |} in
      {| view := DASHBOARD;
         wallet := Some newWallet;
         walletState :=
           match fetch_all world address with
           | Normal (initialBalance, initialEthBalance, history) =>
               {| address := address;
                  mnemonic := Some mnemonic;
                  balance := initialBalance;
                  ethBalance := initialEthBalance;
                  transactions := history |}
           | Throw innerError => shown
           end;
         isLoading := false;
         isRefreshing := isRefreshing s;
         showLogoutModal := showLogoutModal s;
         localStorage :=
           <["base_wallet_logged_in" := "true"]>
             (<["base_wallet_mnemonic" := mnemonic]> (localStorage s));
         providers := providers' |}
  | (Throw e, providers') =>
      {| view := LOGIN;
         wallet := wallet s;
         walletState := walletState s;
         isLoading := false;
         isRefreshing := isRefreshing s;
         showLogoutModal := showLogoutModal s;
         localStorage :=
           delete "base_wallet_logged_in"
             (delete "base_wallet_mnemonic" (localStorage s));
         providers := providers' |}
  end.

Definition setView (v : ViewState) (s : State) : State :=
  {| view := v;
     wallet := wallet s;
     walletState := walletState s;
     isLoading := isLoading s;
     isRefreshing := isRefreshing s;
     showLogoutModal := showLogoutModal s;
     localStorage := localStorage s;
     providers := providers s |}.

(** A string is truthy when it is not empty. *)
Definition truthy (s : string) : bool :=
  match s with
  | EmptyString => false
  | String _ _ => true
  end.

(** The effect run on mount. *)
Definition restoreSession (world : World) (s : State) : State :=
  let savedMnemonic := localStorage s !! "base_wallet_mnemonic" in
  let isLoggedIn := localStorage s !! "base_wallet_logged_in" in
  match savedMnemonic with
  | Some savedMnemonic =>
      if bool_decide (isLoggedIn = Some "true") && truthy savedMnemonic
      then initializeWallet world savedMnemonic s
      else setView LOGIN s
  | None => setView LOGIN s
  end.

Definition handleLogin (world : World) (s : State) : State :=
  match localStorage s !! "base_wallet_mnemonic" with
  | Some savedMnemonic =>
      if truthy savedMnemonic then initializeWallet world savedMnemonic s
      else setView SETUP s
  | None => setView SETUP s
  end.

(** [createRandom] is what [ethers.Wallet.createRandom()] settles with: the
    phrase of the new wallet if it has one, or an error. *)
Definition handleCreateWallet (world : World) (createRandom : completion (option string))
           (s : State) : State :=
  match createRandom with
  | Normal (Some newMnemonic) =>
      if truthy newMnemonic then initializeWallet world newMnemonic s
      else setView LOGIN s
  | Normal None => setView LOGIN s
  | Throw err => setView LOGIN s
  end.

Definition handleImport (world : World) (mnemonic : string) (s : State) : State :=
  initializeWallet world mnemonic s.

Definition handleRefresh (world : World) (s : State) : State :=
  match wallet s with
  | None => s
  | Some _ =>
      if truthy (address (walletState s)) then
        {| view := view s;
           wallet := wallet s;
           walletState :=
             match fetch_all world (address (walletState s)) with
             | Normal (usdcBal, ethBal, history) =>
                 {| address := address (walletState s);
                    mnemonic := mnemonic (walletState s);
                    balance := usdcBal;
                    ethBalance := ethBal;
                    transactions := history |}
             | Throw error => walletState s
             end;
           isLoading := isLoading s;
           isRefreshing := false;
           showLogoutModal := showLogoutModal s;
           localStorage := localStorage s;
           providers := providers s |}
      else s
  end.

(** The polling effect is set up while a wallet is in use and the address
    shown is not empty; its timers then run [fetchData] and the history
    refresh. *)
Definition polling (s : State) : bool :=
  match wallet s with
  | Some _ => truthy (address (walletState s))
  | None => false
  end.

Definition fetchData (world : World) (s : State) : State :=
  if polling s then
    match (usdcBal ← getUSDCBalance (api world) (address (walletState s));
           ethBal ← getETHBalance (api world) (address (walletState s));
           Normal (usdcBal, ethBal)) with
    | Normal (usdcBal, ethBal) =>
        {| view := view s;
           wallet := wallet s;
           walletState :=
             {| address := address (walletState s);
                mnemonic := mnemonic (walletState s);
                balance := usdcBal;
                ethBalance := ethBal;
                transactions := transactions (walletState s) |};
           isLoading := isLoading s;
           isRefreshing := isRefreshing s;
           showLogoutModal := showLogoutModal s;
           localStorage := localStorage s;
           providers := providers s |}
    | Throw _ => s
    end
  else s.

Definition refreshHistory (world : World) (s : State) : State :=
  if polling s then
    match getRecentTransactions (api world) (sched world) (Date_now world)
                                (address (walletState s)) with
    | Normal history =>
        {| view := view s;
           wallet := wallet s;
           walletState :=
             {| address := address (walletState s);
                mnemonic := mnemonic (walletState s);
                balance := balance (walletState s);
                ethBalance := ethBalance (walletState s);
                transactions := history |};
           isLoading := isLoading s;
           isRefreshing := isRefreshing s;
           showLogoutModal := showLogoutModal s;
           localStorage := localStorage s;
           providers := providers s |}
    | Throw _ => s
    end
  else s.

Definition confirmLogout (s : State) : State :=
  {| view := LOGIN;
     wallet := None;
     walletState := walletState s;
     isLoading := isLoading s;
     isRefreshing := isRefreshing s;
     showLogoutModal := false;
     localStorage :=
       delete "base_wallet_mnemonic"
         (delete "base_wallet_logged_in" (localStorage s));
     providers := providers s |}.

(** The handlers as events: the mount effect, the login button, wallet
    creation, a phrase submitted in the import form, refresh, logout, and
    the two timers of the polling effect. *)
Inductive Event :=
| Mount (world : World)
| Login (world : World)
| CreateWallet (world : World) (createRandom : completion (option string))
| SubmitPhrase (world : World) (phrase : string)
| Refresh (world : World)
| Logout
| PollBalances (world : World)
| PollHistory (world : World).

Definition handle (s : State) (event : Event) : State :=
  match event with
  | Mount world => restoreSession world s
  | Login world => handleLogin world s
  | CreateWallet world createRandom => handleCreateWallet world createRandom s
  | SubmitPhrase world phrase =>
      match ImportWalletView.handleSubmit fromPhrase phrase with
      | ImportWalletView.onImport cleanPhrase => handleImport world cleanPhrase s
      | ImportWalletView.setError _ => s
      end
  | Refresh world => handleRefresh world s
  | Logout => confirmLogout s
  | PollBalances world => fetchData world s
  | PollHistory world => refreshHistory world s
  end.

Definition run (events : list Event) (s : State) : State := foldl handle s events.

End Handlers.

(** ** Notions used by the statements on sessions *)

(** The stored session is sound: a stored mnemonic derives a wallet, and
    the logged-in flag is stored as "true", and only beside a mnemonic. *)
Definition storage_sound (fromPhrase : string -> completion HDNodeWallet)
           (storage : gmap string string) : Prop :=
  (forall m, storage !! "base_wallet_mnemonic" = Some m ->
             exists w, fromPhrase m = Normal w)
  /\ (forall flag, storage !! "base_wallet_logged_in" = Some flag ->
                   flag = "true" /\ is_Some (storage !! "base_wallet_mnemonic")).

(** The wallet in use is the one of the state shown: it is derived from the
    mnemonic of the wallet state and has its address. *)
Definition wallet_matches (fromPhrase : string -> completion HDNodeWallet) (s : State) : Prop :=
  forall w, wallet s = Some w ->
    address (walletState s) = wallet_address w
    /\ exists m w', mnemonic (walletState s) = Some m
                    /\ fromPhrase m = Normal w'
                    /\ wallet_address w' = wallet_address w.

End App.

(** The words of a phrase: its maximal runs of characters other than white
    space, [cur] being the word read so far. *)
Fixpoint split_words (l : list ascii) (cur : list ascii) : list (list ascii) :=
  match l with
  | [] => match cur with [] => [] | _ => [cur] end
  | c :: l' =>
      if is_space c
      then match cur with
           | [] => split_words l' []
           | _ => cur :: split_words l' []
           end
      else split_words l' (cur ++ [c])
  end.

Definition words (phrase : string) : list (list ascii) :=
  split_words (list_ascii_of_string phrase) [].

(** Words joined by single spaces. *)
Definition unwords (ws : list (list ascii)) : list ascii :=
  match ws with
  | [] => []
  | w :: ws' => w ++ concat (map (fun w' => " "%char :: w') ws')
  end.

(** ** Phrases for the scenarios: only [seed_phrase] derives a wallet. *)
Definition seed_phrase : string := "legal winner thank year wave sausage".

Definition fromPhrase_seed (phrase : string) : completion HDNodeWallet :=
  if bool_decide (phrase = seed_phrase)
  then Normal {| wallet_address := alice; wallet_provider := None |}
  else Throw "invalid mnemonic length".

(** ** Worlds and storages for the scenarios *)

Definition busy_world : App.World :=
  {| App.api := busy_api; App.sched := fifo; App.Date_now := wall_clock |}.

Definition offline_world : App.World :=
  {| App.api := offline_api; App.sched := lifo; App.Date_now := wall_clock |}.

(** A stored session whose mnemonic is no phrase at all. *)
Definition corrupt_storage : gmap string string :=
  <["base_wallet_logged_in" := "true"]> (<["base_wallet_mnemonic" := "lorem ipsum"]> ∅).

(** The session of [seed_phrase], as stored. *)
Definition saved_storage : gmap string string :=
  <["base_wallet_logged_in" := "true"]> (<["base_wallet_mnemonic" := seed_phrase]> ∅).

(** A ledger without transfers, with one sub-range out of reach. *)
Definition quiet_api : ReadAPI := ledger_api 10000 [] block_time middle_down found.

(** An active ledger on which the queried account is silent: its only
    transfer is between two other accounts. *)
Definition carol : string := "0xca401000000000000000000000000000000000003".

Definition bob_to_carol : EventLog :=
  {| transactionHash := "0xaaa6"; index := 0; blockNumber := 4000;
     args_0 := bob; args_1 := carol; args_2 := 750000 |}.

Definition bystander_api : ReadAPI :=
  ledger_api 10000 [bob_to_carol] block_time middle_down found.


Definition funded_world : App.World :=
  {| App.api := funded_api; App.sched := fifo; App.Date_now := wall_clock |}.


(* ===================================================================== *)
(** * Decimal strings: [formatUnits] read back by [parseFloat] *)
(* ===================================================================== *)

Section Decimals.

Lemma scan_digits_run l rest acc k :
  Forall is_digit l ->
  scan_digits (l ++ rest) acc k
  = scan_digits rest (digits_value acc l) (k + length l).
Proof.
  intros Hl. revert acc k.
  induction Hl as [|c l Hc _ IH]; intros acc k; simpl.
  - rewrite Nat.add_0_r. reflexivity.
  - rewrite Hc, IH. f_equal. lia.
Qed.

Lemma scan_digits_stop c rest acc k :
  digit_of c = None -> scan_digits (c :: rest) acc k = (acc, k, c :: rest).
Proof. intros H. simpl. rewrite H. reflexivity. Qed.

Lemma digits_value_app acc l1 l2 :
  digits_value acc (l1 ++ l2) = digits_value (digits_value acc l1) l2.
Proof. apply foldl_app. Qed.

(** Reading [l] after [acc] shifts [acc] by the length of [l]. *)
Lemma digits_value_shift acc l :
  digits_value acc l = (acc * 10 ^ N.of_nat (length l) + digits_value 0 l)%N.
Proof.
  revert acc. induction l as [|c l IH]; intros acc.
  - simpl. lia.
  - cbn [digits_value foldl length]. fold (digits_value (10 * acc + digit_value c) l).
    fold (digits_value (10 * 0 + digit_value c) l).
    rewrite IH, (IH (10 * 0 + digit_value c)%N).
    rewrite Nat2N.inj_succ, N.pow_succ_r'. lia.
Qed.

Lemma is_digit_0 : is_digit "0".
Proof. reflexivity. Qed.

Lemma digits_value_zeros n acc l :
  digits_value acc (replicate n "0"%char ++ l)
  = digits_value (acc * 10 ^ N.of_nat n) l.
Proof.
  revert acc. induction n as [|n IH]; intros acc.
  - simpl. f_equal. lia.
  - cbn [replicate app digits_value foldl].
    fold (digits_value (10 * acc + digit_value "0") (replicate n "0"%char ++ l)).
    rewrite IH. f_equal. rewrite Nat2N.inj_succ, N.pow_succ_r'.
    change (digit_value "0") with 0%N. lia.
Qed.

(** *** The digits printed for a number *)

Lemma uint_digits d :
  Forall is_digit (list_ascii_of_string (NilEmpty.string_of_uint d)).
Proof. induction d; simpl; constructor; auto; reflexivity. Qed.

Lemma uint_value_acc d acc :
  digits_value (Npos acc) (list_ascii_of_string (NilEmpty.string_of_uint d))
  = Npos (Pos.of_uint_acc d acc).
Proof.
  revert acc. induction d; intros acc; simpl; try reflexivity;
    unfold digits_value in *; simpl; rewrite <- IHd; f_equal;
    match goal with |- context [digit_value ?c] =>
      let v := eval vm_compute in (digit_value c) in change (digit_value c) with v
    end; lia.
Qed.

Lemma uint_value d :
  digits_value 0 (list_ascii_of_string (NilEmpty.string_of_uint d)) = N.of_uint d.
Proof.
  induction d; simpl; try reflexivity; try exact IHd;
    unfold N.of_uint; simpl; rewrite <- uint_value_acc; reflexivity.
Qed.

Lemma Number_toString_digits n :
  Forall is_digit (list_ascii_of_string (Number_toString n)).
Proof.
  unfold Number_toString, NilZero.string_of_uint.
  destruct (N.to_uint n) eqn:E; try (rewrite <- E; apply uint_digits).
  repeat constructor.
Qed.

Lemma Number_toString_value n :
  digits_value 0 (list_ascii_of_string (Number_toString n)) = n.
Proof.
  unfold Number_toString, NilZero.string_of_uint.
  rewrite <- (DecimalN.Unsigned.of_to n) at 2.
  destruct (N.to_uint n) eqn:E; try (rewrite <- E; apply uint_value).
  reflexivity.
Qed.

(** *** Trimming *)

Lemma trim_leading_zeros_split l :
  exists k, l = replicate k "0"%char ++ trim_leading_zeros l.
Proof.
  induction l as [|c l IH]; [exists 0%nat; reflexivity|].
  destruct l as [|c' l]; [exists 0%nat; reflexivity|].
  change (trim_leading_zeros (c :: c' :: l))
    with (if Ascii.eqb c "0" then trim_leading_zeros (c' :: l) else c :: c' :: l).
  destruct (Ascii.eqb c "0") eqn:E.
  - apply Ascii.eqb_eq in E as ->. destruct IH as [k IH].
    exists (S k). cbn [replicate app]. f_equal. exact IH.
  - exists 0%nat. reflexivity.
Qed.

Lemma trim_leading_zeros_nonempty l : l <> [] -> trim_leading_zeros l <> [].
Proof.
  induction l as [|c l IH]; [congruence|]. intros _.
  destruct l as [|c' l]; [discriminate|].
  change (trim_leading_zeros (c :: c' :: l))
    with (if Ascii.eqb c "0" then trim_leading_zeros (c' :: l) else c :: c' :: l).
  destruct (Ascii.eqb c "0"); [|discriminate].
  apply IH. discriminate.
Qed.

Lemma trim_leading_zeros_digits l :
  Forall is_digit l -> Forall is_digit (trim_leading_zeros l).
Proof.
  intros H. destruct (trim_leading_zeros_split l) as [k Hk].
  rewrite Hk in H. apply Forall_app in H. tauto.
Qed.

Lemma trim_leading_zeros_value l :
  digits_value 0 (trim_leading_zeros l) = digits_value 0 l.
Proof.
  destruct (trim_leading_zeros_split l) as [k Hk].
  rewrite Hk at 2. rewrite digits_value_zeros. reflexivity.
Qed.

Lemma trim_trailing_zeros_split l :
  exists k, l = trim_trailing_zeros l ++ replicate k "0"%char.
Proof.
  unfold trim_trailing_zeros.
  destruct (trim_leading_zeros_split (rev l)) as [k Hk]. exists k.
  rewrite <- (rev_involutive l) at 1. rewrite Hk at 1.
  rewrite rev_app_distr. f_equal.
  clear. induction k as [|k IH]; [reflexivity|].
  cbn [replicate rev]. rewrite IH. clear.
  induction k as [|k IH]; [reflexivity|]. cbn [replicate app]. congruence.
Qed.

Lemma trim_trailing_zeros_nonempty l : l <> [] -> trim_trailing_zeros l <> [].
Proof.
  intros H E. unfold trim_trailing_zeros in E.
  apply (f_equal (@rev ascii)) in E. rewrite rev_involutive in E. simpl in E.
  apply trim_leading_zeros_nonempty in E; [exact E|].
  intros E'. apply (f_equal (@rev ascii)) in E'. rewrite rev_involutive in E'. auto.
Qed.

Lemma trim_trailing_zeros_digits l :
  Forall is_digit l -> Forall is_digit (trim_trailing_zeros l).
Proof.
  intros H. destruct (trim_trailing_zeros_split l) as [k Hk].
  rewrite Hk in H. apply Forall_app in H. tauto.
Qed.

(** *** The round trip *)

Lemma is_digit_not c x : is_digit c -> digit_of x = None -> Ascii.eqb c x = false.
Proof.
  intros Hc Hx. apply Ascii.eqb_neq. intros ->. unfold is_digit in Hc. congruence.
Qed.

Lemma scale10_Z k : Z.pos (scale10 k) = 10 ^ Z.of_nat k.
Proof. unfold scale10. rewrite Z2Pos.id; [reflexivity|]. apply Z.pow_pos_nonneg; lia. Qed.

(** [formatUnits] of a non-negative value with at least one decimal reads
    back as a mantissa [m] over [10^k] denoting [value / 10^decimals]. *)
Lemma parseFloat_formatUnits (value : N) (d : nat) :
  exists m k,
    parseFloat (formatUnits (Z.of_N value) (S d)) = Some (Z.of_N m # scale10 k)
    /\ (m * 10 ^ N.of_nat (S d) = value * 10 ^ N.of_nat k)%N.
Proof.
  unfold formatUnits.
  replace (Z.of_N value <? 0) with false by (symmetry; apply Z.ltb_ge; lia).
  rewrite Zabs2N.id.
  set (str := list_ascii_of_string (Number_toString value)).
  set (padded := replicate (S (S d) - length str) "0"%char ++ str).
  set (index := (length padded - S d)%nat).
  assert (Hdig : Forall is_digit padded).
  { apply Forall_app. split; [|apply Number_toString_digits].
    apply Forall_replicate. apply is_digit_0. }
  assert (Hval : digits_value 0 padded = value).
  { unfold padded. rewrite digits_value_zeros. apply Number_toString_value. }
  assert (Hlen : (S (S d) <= length padded)%nat).
  { unfold padded. rewrite length_app, length_replicate. lia. }
  pose proof (take_drop index padded) as Hsplit.
  set (W := take index padded) in *. set (F := drop index padded) in *.
  assert (HlenF : length F = S d) by (unfold F, index; rewrite length_drop; lia).
  assert (HW : W <> []).
  { intros E. apply (f_equal (@length ascii)) in E. unfold W in E.
    rewrite length_take in E. simpl in E. unfold index in E. lia. }
  assert (HdW : Forall is_digit W) by (rewrite <- Hsplit in Hdig; apply Forall_app in Hdig; tauto).
  assert (HdF : Forall is_digit F) by (rewrite <- Hsplit in Hdig; apply Forall_app in Hdig; tauto).
  destruct (trim_trailing_zeros_split F) as [z Hz].
  pose proof (trim_trailing_zeros_digits F HdF) as HdF'.
  assert (HF' : trim_trailing_zeros F <> []).
  { apply trim_trailing_zeros_nonempty. intros E. rewrite E in HlenF. discriminate. }
  pose proof (trim_leading_zeros_digits W HdW) as HdW'.
  pose proof (trim_leading_zeros_nonempty W HW) as HW'.
  pose proof (trim_leading_zeros_value W) as HvW.
  set (W' := trim_leading_zeros W) in *. set (F' := trim_trailing_zeros F) in *.
  exists (digits_value (digits_value 0 W') F'), (length F'). split.
  - unfold parseFloat. rewrite list_ascii_of_string_of_list_ascii.
    cbn [app]. destruct W' as [|c W'']; [congruence|].
    cbn [app]. pose proof (Forall_inv HdW') as Hc.
    rewrite (is_digit_not c "-" Hc eq_refl), (is_digit_not c "+" Hc eq_refl).
    change (c :: W'' ++ "."%char :: F') with ((c :: W'') ++ "."%char :: F').
    rewrite (scan_digits_run _ _ _ _ HdW'), scan_digits_stop by reflexivity.
    change (Ascii.eqb "." ".") with true. cbv iota.
    rewrite <- (app_nil_r F') at 1. rewrite (scan_digits_run _ _ _ _ HdF').
    cbn [scan_digits length Nat.add]. reflexivity.
  - rewrite HvW.
    assert (Hv : value = (digits_value 0 W * 10 ^ N.of_nat (S d) + digits_value 0 F)%N).
    { rewrite <- Hval, <- Hsplit, digits_value_app, digits_value_shift, HlenF. reflexivity. }
    assert (HvF : digits_value 0 F = (digits_value 0 F' * 10 ^ N.of_nat z)%N).
    { rewrite Hz at 1. rewrite digits_value_app.
      rewrite <- (app_nil_r (replicate z "0"%char)), digits_value_zeros. reflexivity. }
    assert (Hd : S d = (length F' + z)%nat).
    { rewrite <- HlenF. rewrite Hz at 1. rewrite length_app, length_replicate. reflexivity. }
    rewrite (digits_value_shift (digits_value 0 W) F'), Hv, HvF, Hd.
    rewrite Nat2N.inj_add, N.pow_add_r. lia.
Qed.

Lemma formatUnits_value_Q (value : N) (d : nat) :
  exists q, parseFloat (formatUnits (Z.of_N value) (S d)) = Some q
            /\ Qeq q (Z.of_N value # scale10 (S d)).
Proof.
  destruct (parseFloat_formatUnits value d) as (m & k & -> & H).
  eexists; split; [reflexivity|].
  unfold Qeq. cbn [Qnum Qden]. rewrite !scale10_Z.
  apply (f_equal Z.of_N) in H. rewrite !N2Z.inj_mul, !N2Z.inj_pow in H.
  rewrite !nat_N_Z in H. cbn [Z.of_N] in H. exact H.
Qed.

Lemma formatUnits_positive (value : N) (d : nat) :
  gt0 (parseFloat (formatUnits (Z.of_N value) (S d))) = true <-> (0 < value)%N.
Proof.
  destruct (parseFloat_formatUnits value d) as (m & k & -> & H).
  cbn [gt0 Qnum]. rewrite Z.ltb_lt.
  assert (0 < 10 ^ N.of_nat (S d))%N by (apply N.neq_0_lt_0, N.pow_nonzero; lia).
  assert (0 < 10 ^ N.of_nat k)%N by (apply N.neq_0_lt_0, N.pow_nonzero; lia).
  split; intros; nia.
Qed.

Example formatUnits_whole : formatUnits 5000000 6 = "5.0".
Proof. reflexivity. Qed.

Example formatUnits_smallest : formatUnits 1 6 = "0.000001".
Proof. reflexivity. Qed.

Example formatUnits_zero : formatUnits 0 6 = "0.0".
Proof. reflexivity. Qed.

Example formatUnits_fraction : formatUnits 1234500 6 = "1.2345".
Proof. reflexivity. Qed.

Example formatEther_one : formatEther 1000000000000000000 = "1.0".
Proof. reflexivity. Qed.

Example parseFloat_zero : gt0 (parseFloat "0.0") = false.
Proof. reflexivity. Qed.

Example parseFloat_NaN : parseFloat "abc" = None.
Proof. reflexivity. Qed.

End Decimals.

(* ===================================================================== *)
(** * Promise.all: the result does not depend on the completion order *)
(* ===================================================================== *)

Lemma omap_lookup_seq {X A} (val : X -> A) (pre suf : list X) :
    omap (fun i => val <$> (pre ++ suf) !! i) (seq (length pre) (length suf))
    = val <$> suf.
  Proof.
    revert pre. induction suf as [|x suf IH]; intros pre; [reflexivity|].
    cbn [length seq]. simpl omap. rewrite list_lookup_middle by reflexivity.
    simpl. f_equal.
    specialize (IH (pre ++ [x])).
    rewrite <- app_assoc, length_app, Nat.add_1_r in IH. exact IH.
  Qed.

Section PromiseFacts.
Context {St A X : Type}.

Lemma settle_order_Permutation choices fuel (pending : list nat) :
  (length pending <= fuel)%nat ->
  settle_order choices fuel pending ≡ₚ pending.
Proof.
  revert choices pending.
  induction fuel as [|fuel IH]; intros choices pending Hlen.
  - destruct pending; [reflexivity | simpl in Hlen; lia].
  - cbn [settle_order].
    destruct pending as [|j pending']; [reflexivity|].
    set (pending := j :: pending') in *.
    set (k := (hd 0%nat choices mod length pending)%nat).
    assert (Hk : (k < length pending)%nat)
      by (apply Nat.mod_upper_bound; discriminate).
    destruct (lookup_lt_is_Some_2 pending k Hk) as [i Hi].
    rewrite Hi. rewrite (delete_Permutation pending k i Hi) at 2.
    constructor. apply IH.
    rewrite length_delete by eauto. lia.
Qed.


Variable eff : X -> St -> St.
Variable val : X -> A.
Variable xs : list X.
Variable promises : list (@Promise St A).
Hypothesis fulfilled :
  Forall2 (fun x (p : @Promise St A) => forall st, p st = (eff x st, Normal (val x)))
          xs promises.

Let step_state (s : St) (i : nat) : St :=
  match xs !! i with Some x => eff x s | None => s end.
Let step_values (vs : gmap nat A) (i : nat) : gmap nat A :=
  match xs !! i with Some x => <[i := val x]> vs | None => vs end.

Lemma settle_all_fulfilled order st values :
  settle_all order promises st values
  = (foldl step_state st order, Normal (foldl step_values values order)).
Proof.
  revert st values. induction order as [|i order IH]; intros st values; [reflexivity|].
  cbn [settle_all foldl]. unfold step_state at 2, step_values at 2.
  destruct (promises !! i) as [p|] eqn:Hp.
  - destruct (Forall2_lookup_r _ _ _ _ _ fulfilled Hp) as (x & Hx & Hpx).
    rewrite Hx, Hpx. apply IH.
  - assert (xs !! i = None) as ->; [|apply IH].
    apply lookup_ge_None. apply lookup_ge_None in Hp.
    rewrite (Forall2_length _ _ _ fulfilled). exact Hp.
Qed.

Lemma step_values_lookup order values i :
  foldl step_values values order !! i
  = match xs !! i with
    | Some x => if decide (i ∈ order) then Some (val x) else values !! i
    | None => values !! i
    end.
Proof.
  revert values. induction order as [|j order IH]; intros values.
  - cbn [foldl]. destruct (xs !! i); [|reflexivity].
    rewrite decide_False; [reflexivity | apply not_elem_of_nil].
  - cbn [foldl]. rewrite IH.
    assert (Hstep : i <> j -> step_values values j !! i = values !! i).
    { intros Hne. unfold step_values.
      destruct (xs !! j); [apply lookup_insert_ne; congruence | reflexivity]. }
    destruct (xs !! i) as [x|] eqn:Hx.
    + destruct (decide (i ∈ order)) as [Hin|Hnin].
      * rewrite decide_True; [reflexivity | right; exact Hin].
      * destruct (decide (i = j)) as [<-|Hne].
        -- unfold step_values.
           rewrite Hx, lookup_insert_eq, decide_True; [reflexivity | left].
        -- rewrite decide_False by (rewrite elem_of_cons; tauto). auto.
    + destruct (decide (i = j)) as [<-|Hne]; [|auto].
      unfold step_values. rewrite Hx. reflexivity.
Qed.

(** With promises that all fulfil, [Promise.all] fulfils with the values in
    the order of the promises, after their continuations ran in some order. *)
Lemma Promise_all_fulfilled choices st :
  exists xs', xs' ≡ₚ xs
    /\ Promise_all choices promises st
       = (foldl (fun s x => eff x s) st xs', Normal (val <$> xs)).
Proof.
  unfold Promise_all.
  pose proof (Forall2_length _ _ _ fulfilled) as Hlen.
  set (n := length promises) in *.
  pose proof (settle_order_Permutation choices n (seq 0 n)) as Hperm.
  rewrite length_seq in Hperm. specialize (Hperm (le_n _)).
  set (order := settle_order choices n (seq 0 n)) in *.
  rewrite settle_all_fulfilled.
  exists (omap (fun i => xs !! i) order). split; [|f_equal].
  - rewrite Hperm, <- Hlen.
    pose proof (omap_lookup_seq (fun x => x) [] xs) as H. cbn [app length] in H.
    rewrite list_fmap_id in H. rewrite <- H at 2.
    erewrite list_omap_ext; [reflexivity|].
    clear. induction (seq 0 (length xs)); constructor; auto.
    destruct (xs !! a); reflexivity.
  - clear. revert st. induction order as [|i order IH]; intros st; [reflexivity|].
    cbn [foldl]. rewrite IH. simpl omap. unfold step_state.
    destruct (xs !! i); reflexivity.
  - f_equal. rewrite <- Hlen.
    rewrite <- (omap_lookup_seq val [] xs). cbn [app length].
    apply list_omap_ext. apply Forall2_same_length_lookup_2; [reflexivity|].
    intros i a b Ha Hb. assert (a = b) as <- by congruence.
    rewrite step_values_lookup, lookup_empty.
    apply lookup_seq in Ha as [-> Hi]. cbn [Nat.add].
    destruct (xs !! i) eqn:E; [|reflexivity].
    rewrite decide_True; [reflexivity|].
    rewrite Hperm, <- Hlen. apply elem_of_seq. lia.
Qed.
End PromiseFacts.

(* ===================================================================== *)
(** * The fetch loops *)
(* ===================================================================== *)

Section Fetching.
Variable api : ReadAPI.
Variable sched : Scheduler.

Lemma slice_drop {A} (l : list A) (i n : nat) :
  drop i l = slice l i (i + n) ++ drop (i + n) l.
Proof.
  unfold slice. replace (i + n - i)%nat with n by lia.
  rewrite <- drop_drop. symmetry. apply take_drop.
Qed.

Lemma foldl_app_concat {A} (acc : list A) (chunks : list (list A)) :
  foldl (fun all chunk => all ++ chunk) acc chunks = acc ++ concat chunks.
Proof.
  revert acc. induction chunks as [|c chunks IH]; intros acc; simpl.
  - rewrite app_nil_r. reflexivity.
  - rewrite IH, app_assoc. reflexivity.
Qed.

Lemma query_range_fulfilled filter range st :
  query_range api filter range st = (st, Normal (chunk_logs api filter range)).
Proof.
  unfold query_range, settled, chunk_logs, catch.
  destruct (queryFilter api filter _ _); reflexivity.
Qed.

Lemma Promise_all_queries choices filter batch :
  Promise_all choices (map (query_range api filter) batch) tt
  = (tt, Normal (chunk_logs api filter <$> batch)).
Proof.
  destruct (Promise_all_fulfilled (fun _ st => st) (chunk_logs api filter) batch
              (map (query_range api filter) batch)) with (choices := choices) (st := tt)
    as (xs' & _ & ->).
  - apply Forall2_fmap_r, Forall_Forall2_diag, Forall_forall.
    intros range _ st. apply query_range_fulfilled.
  - f_equal. destruct (foldl _ _ _). reflexivity.
Qed.

Lemma fetch_batches_spec filter ranges i allLogs :
  fetch_batches api sched filter ranges i allLogs
  = Normal (allLogs ++ concat (chunk_logs api filter <$> drop i ranges)).
Proof.
  funelim (fetch_batches api sched filter ranges i allLogs);
    try match goal with
      | H : Promise_all _ _ _ = _ |- _ =>
          rewrite Promise_all_queries in H; simplify_eq
      end.
  - rewrite drop_ge by lia. rewrite app_nil_r. reflexivity.
  - match goal with IH : fetch_batches _ _ _ _ _ _ = Normal _ |- _ => rewrite IH end.
    rewrite foldl_app_concat, (slice_drop ranges i BATCH_SIZE).
    rewrite fmap_app, concat_app, app_assoc. reflexivity.
Qed.

Lemma fetchLogsChunked_spec head filter :
  fetchLogsChunked api sched (Z.max 0 (head - SCAN_RANGE)) head filter
  = Normal (window_logs api head filter).
Proof. unfold fetchLogsChunked. rewrite fetch_batches_spec. reflexivity. Qed.

(** *** Block timestamps *)

Lemma fetch_block_fulfilled bn blockMap :
  fetch_block api bn blockMap = (record_block api bn blockMap, Normal tt).
Proof.
  unfold fetch_block, record_block, resolved.
  destruct (getBlock api bn) as [[block|]|]; reflexivity.
Qed.

Lemma record_blocks_lookup (bns : list Z) (m : gmap Z Z) (bn : Z) :
  foldl (fun m bn => record_block api bn m) m bns !! bn
  = match resolved api bn with
    | Some ts => if decide (bn ∈ bns) then Some ts else m !! bn
    | None => m !! bn
    end.
Proof.
  revert m. induction bns as [|b bns IH]; intros m; cbn [foldl].
  - destruct (resolved api bn); [|reflexivity].
    rewrite decide_False; [reflexivity | apply not_elem_of_nil].
  - rewrite IH.
    assert (Hne : bn <> b -> record_block api b m !! bn = m !! bn).
    { intros Hne. unfold record_block.
      destruct (resolved api b); [apply lookup_insert_ne; congruence | reflexivity]. }
    destruct (resolved api bn) as [ts|] eqn:Hr.
    + destruct (decide (bn ∈ bns)) as [Hin|Hnin].
      * rewrite decide_True; [reflexivity | right; exact Hin].
      * destruct (decide (bn = b)) as [<-|Hb].
        -- unfold record_block.
           rewrite Hr, lookup_insert_eq, decide_True; [reflexivity | left].
        -- rewrite decide_False by (rewrite elem_of_cons; tauto). auto.
    + destruct (decide (bn = b)) as [<-|Hb]; [|auto].
      unfold record_block. rewrite Hr. reflexivity.
Qed.

Lemma Promise_all_blocks choices chunk blockMap :
  exists chunk', chunk' ≡ₚ chunk
    /\ Promise_all choices (map (fetch_block api) chunk) blockMap
       = (foldl (fun m bn => record_block api bn m) blockMap chunk',
          Normal ((fun _ => tt) <$> chunk)).
Proof.
  apply (Promise_all_fulfilled (record_block api) (fun _ => tt) chunk).
  apply Forall2_fmap_r, Forall_Forall2_diag, Forall_forall.
  intros bn _ st. apply fetch_block_fulfilled.
Qed.

Lemma fetch_timestamps_spec blockNumbers i blockMap :
  exists blockMap',
    fetch_timestamps api sched blockNumbers i blockMap = Normal blockMap'
    /\ forall bn,
         blockMap' !! bn
         = match resolved api bn with
           | Some ts => if decide (bn ∈ drop i blockNumbers) then Some ts
                        else blockMap !! bn
           | None => blockMap !! bn
           end.
Proof.
  funelim (fetch_timestamps api sched blockNumbers i blockMap);
    try match goal with
      | H : Promise_all ?c (map _ ?chunk) ?m = _ |- _ =>
          let chunk' := fresh "chunk'" in
          let Hperm := fresh "Hperm" in
          let Heq := fresh "Heq" in
          destruct (Promise_all_blocks c chunk m) as (chunk' & Hperm & Heq);
          rewrite Heq in H; simplify_eq
      end.
  - eexists; split; [reflexivity|]. intros bn.
    rewrite drop_ge by lia.
    destruct (resolved api bn); [|reflexivity].
    rewrite decide_False; [reflexivity | apply not_elem_of_nil].
  - match goal with IH : ex _ |- _ => destruct IH as (M & -> & HM) end.
    eexists; split; [reflexivity|]. intros bn. rewrite HM.
    rewrite record_blocks_lookup.
    rewrite (slice_drop blockNumbers i requestChunkSize).
    destruct (resolved api bn) as [ts|]; [|reflexivity].
    destruct (decide (bn ∈ drop _ blockNumbers)) as [Hin|Hnin].
    + rewrite decide_True; [reflexivity | apply elem_of_app; tauto].
    + destruct (decide (bn ∈ chunk')) as [Hin'|Hnin'].
      * rewrite decide_True; [reflexivity|].
        apply elem_of_app. left. rewrite <- Hperm. exact Hin'.
      * rewrite decide_False; [reflexivity|].
        rewrite elem_of_app, <- Hperm. tauto.
Qed.

Lemma fetch_timestamps_block_times blockNumbers :
  fetch_timestamps api sched blockNumbers 0 ∅ = Normal (block_times api blockNumbers).
Proof.
  destruct (fetch_timestamps_spec blockNumbers 0 ∅) as (M & -> & HM).
  f_equal. apply map_eq. intros bn. rewrite HM. unfold block_times.
  rewrite record_blocks_lookup. reflexivity.
Qed.

(** *** The whole call *)

Lemma Promise_all_both filterIn filterOut head :
  snd (Promise_all (both_settle sched)
         [settled (fetchLogsChunked api sched (Z.max 0 (head - SCAN_RANGE)) head filterIn);
          settled (fetchLogsChunked api sched (Z.max 0 (head - SCAN_RANGE)) head filterOut)]
         tt)
  = Normal [window_logs api head filterIn; window_logs api head filterOut].
Proof.
  destruct (Promise_all_fulfilled (St := unit) (fun _ st => st) (fun logs : list EventLog => logs)
              [window_logs api head filterIn; window_logs api head filterOut]
              [settled (fetchLogsChunked api sched (Z.max 0 (head - SCAN_RANGE)) head filterIn);
               settled (fetchLogsChunked api sched (Z.max 0 (head - SCAN_RANGE)) head filterOut)])
    with (choices := both_settle sched) (st := tt) as (xs' & _ & ->).
  - repeat constructor; intros st; unfold settled; rewrite fetchLogsChunked_spec; reflexivity.
  - reflexivity.
Qed.

Lemma reconstruct_spec Date_now address head :
  getBlockNumber api = Normal head ->
  reconstruct api sched Date_now address = Normal (history api Date_now address head).
Proof.
  intros Hhead. unfold reconstruct. rewrite Hhead.
  cbn [mbind completion_bind]. rewrite Promise_all_both.
  cbn [mbind completion_bind]. rewrite fetch_timestamps_block_times. reflexivity.
Qed.

Lemma getRecentTransactions_spec Date_now address :
  getRecentTransactions api sched Date_now address
  = match getBlockNumber api with
    | Normal head => Normal (history api Date_now address head)
    | Throw _ => Normal []
    end.
Proof.
  unfold getRecentTransactions.
  destruct (getBlockNumber api) as [head|e] eqn:Hhead.
  - rewrite (reconstruct_spec _ _ head Hhead). reflexivity.
  - unfold reconstruct. rewrite Hhead. reflexivity.
Qed.
End Fetching.

(* ===================================================================== *)
(** * Deduplication, timestamps and ordering *)
(* ===================================================================== *)

Section MapFacts.
Context {V : Type}.
Implicit Types (m : list (string * V)) (k : string) (v : V).

Lemma Map_set_elem m k v k' v' :
  (k', v') ∈ Map_set k v m -> (k' = k /\ v' = v) \/ (k', v') ∈ m.
Proof.
  induction m as [|[k0 v0] m IH]; cbn [Map_set].
  - rewrite list_elem_of_singleton. intros [= -> ->]. auto.
  - destruct (String.eqb k0 k) eqn:E.
    + apply String.eqb_eq in E as ->. rewrite !elem_of_cons.
      intros [[= -> ->]|H]; auto.
    + rewrite !elem_of_cons. intros [H|H]; [auto|].
      destruct (IH H); auto.
Qed.

Lemma Map_set_keys m k v k' :
  k' ∈ (Map_set k v m).*1 <-> k' = k \/ k' ∈ m.*1.
Proof.
  induction m as [|[k0 v0] m IH]; cbn [Map_set].
  - cbn. rewrite list_elem_of_singleton, elem_of_nil. tauto.
  - destruct (String.eqb k0 k) eqn:E; cbn [fmap list_fmap fst].
    + apply String.eqb_eq in E as ->. rewrite !elem_of_cons. tauto.
    + rewrite !elem_of_cons. fold (fmap (M := list) (@fst string V)).
      rewrite IH. tauto.
Qed.

Lemma Map_set_NoDup m k v : NoDup m.*1 -> NoDup (Map_set k v m).*1.
Proof.
  induction m as [|[k0 v0] m IH]; cbn [Map_set]; intros Hnd.
  - cbn. apply NoDup_singleton.
  - destruct (String.eqb k0 k) eqn:E; [apply String.eqb_eq in E as ->; exact Hnd|].
    apply String.eqb_neq in E. cbn in Hnd |- *.
    apply NoDup_cons in Hnd as [Hk0 Hnd]. apply NoDup_cons. split; [|auto].
    fold (fmap (M := list) (@fst string V)) in *.
    rewrite Map_set_keys. intros [->|H]; auto.
Qed.
End MapFacts.

Section Dedup.
Let step (m : list (string * EventLog)) (log : EventLog) :=
  Map_set (log_key log) log m.

Lemma dedup_NoDup logs m : NoDup m.*1 -> NoDup (foldl step m logs).*1.
Proof.
  revert m. induction logs as [|log logs IH]; intros m Hm; cbn [foldl]; [exact Hm|].
  apply IH, Map_set_NoDup, Hm.
Qed.

Lemma dedup_elem logs m k v :
  (k, v) ∈ foldl step m logs -> (k, v) ∈ m \/ (v ∈ logs /\ k = log_key v).
Proof.
  revert m. induction logs as [|log logs IH]; intros m; cbn [foldl]; [auto|].
  intros H. destruct (IH _ H) as [H'|[H1 H2]].
  - apply Map_set_elem in H' as [[-> ->]|H']; [right; split; [left|reflexivity] | auto].
  - right. split; [right; exact H1 | exact H2].
Qed.

Lemma dedup_keeps_key logs m k :
  k ∈ m.*1 -> k ∈ (foldl step m logs).*1.
Proof.
  revert m. induction logs as [|log logs IH]; intros m; cbn [foldl]; [auto|].
  intros H. apply IH, Map_set_keys. auto.
Qed.

Lemma dedup_has_key logs m log :
  log ∈ logs -> log_key log ∈ (foldl step m logs).*1.
Proof.
  revert m. induction logs as [|log' logs IH]; intros m; cbn [foldl].
  - intros H. inversion H.
  - rewrite elem_of_cons. intros [->|H]; [|auto].
    apply dedup_keeps_key, Map_set_keys. auto.
Qed.

Lemma unique_logs_NoDup logs : NoDup (log_key <$> unique_logs logs).
Proof.
  unfold unique_logs, Map_values.
  pose proof (dedup_NoDup logs [] (NoDup_nil_2)) as Hnd.
  pose proof (dedup_elem logs []) as Hel.
  fold step. induction (foldl step [] logs) as [|[k v] m IH]; [constructor|].
  cbn in Hnd |- *. apply NoDup_cons in Hnd as [Hk Hnd].
  assert (Hkv : k = log_key v).
  { destruct (Hel k v) as [H|[_ H]]; [left | inversion H | exact H]. }
  assert (Hm : log_key <$> (map snd m) = m.*1).
  { clear -Hel. induction m as [|[k' v'] m IH]; [reflexivity|].
    cbn. f_equal.
    - destruct (Hel k' v') as [H|[_ H]]; [right; left | inversion H | auto].
    - apply IH. intros k'' v'' H. apply Hel.
      apply elem_of_cons in H as [H|H]; [rewrite H; left | right; right; exact H]. }
  apply NoDup_cons. split.
  - change (map log_key (map snd m)) with (log_key <$> (map snd m)).
    rewrite Hm, <- Hkv. exact Hk.
  - apply IH; [exact Hnd|]. intros k' v' H. apply Hel. right. exact H.
Qed.

Lemma unique_logs_elem logs log : log ∈ unique_logs logs -> log ∈ logs.
Proof.
  unfold unique_logs, Map_values. fold step.
  change (map snd ?m) with (m.*2).
  intros ([k v] & -> & H)%list_elem_of_fmap.
  apply dedup_elem in H as [H|[H _]]; [inversion H | exact H].
Qed.

(** Every fetched event has a survivor with its key. *)
Lemma unique_logs_survivor logs log :
  log ∈ logs ->
  exists log', log' ∈ unique_logs logs /\ log_key log' = log_key log.
Proof.
  intros Hin. pose proof (dedup_has_key logs [] log Hin) as H.
  apply list_elem_of_fmap in H as ([k v] & Hk & H). cbn in Hk. subst k.
  exists v. split.
  - unfold unique_logs, Map_values. fold step.
    change (map snd ?m) with (m.*2). apply list_elem_of_fmap.
    exists (log_key log, v). auto.
  - apply dedup_elem in H as [H|[_ H]]; [inversion H | auto].
Qed.
End Dedup.

Section Keys.
(** The key determines the event identity: the printed index holds no
    dash, so the key splits at its last dash. *)

Lemma dash_not_digit : ~ is_digit "-".
Proof. unfold is_digit. cbn. discriminate. Qed.

Lemma append_dash_not_digits (s d : string) :
  ~ Forall is_digit (list_ascii_of_string (s ++ String "-" d)).
Proof.
  induction s as [|c s IH]; cbn; intros H; inversion H; subst; auto.
  apply dash_not_digit. assumption.
Qed.

Lemma append_dash_inj (s1 s2 d1 d2 : string) :
  Forall is_digit (list_ascii_of_string d1) ->
  Forall is_digit (list_ascii_of_string d2) ->
  (s1 ++ String "-" d1 = s2 ++ String "-" d2)%string ->
  s1 = s2 /\ d1 = d2.
Proof.
  intros H1 H2. revert s2.
  induction s1 as [|c s1 IH]; intros [|c' s2]; cbn; intros E.
  - injection E as ->. auto.
  - injection E as _ ->. exfalso. exact (append_dash_not_digits _ _ H1).
  - injection E as _ <-. exfalso. exact (append_dash_not_digits _ _ H2).
  - injection E as -> E. destruct (IH s2 E) as [-> ->]. auto.
Qed.

Lemma Number_toString_inj n n' : Number_toString n = Number_toString n' -> n = n'.
Proof.
  intros H. rewrite <- (Number_toString_value n), <- (Number_toString_value n'), H.
  reflexivity.
Qed.

Lemma log_key_event_id log log' :
  log_key log = log_key log' <-> event_id log = event_id log'.
Proof.
  unfold log_key, event_id. split.
  - intros H. apply append_dash_inj in H as [-> H]; try apply Number_toString_digits.
    apply Number_toString_inj in H as ->. reflexivity.
  - intros [= -> ->]. reflexivity.
Qed.

Lemma unique_logs_NoDup_id logs : NoDup (event_id <$> unique_logs logs).
Proof.
  pose proof (unique_logs_NoDup logs) as H.
  induction (unique_logs logs) as [|log l IH]; [constructor|].
  cbn in H |- *. apply NoDup_cons in H as [Hk H]. apply NoDup_cons. split; [|auto].
  intros (log' & Hid & Hin)%list_elem_of_fmap. apply Hk.
  apply list_elem_of_fmap. exists log'. split; [|exact Hin].
  apply log_key_event_id. exact Hid.
Qed.

(** An event whose identity is delivered with one content survives as
    itself. *)
Lemma unique_logs_consistent logs log :
  log ∈ logs ->
  (forall log', log' ∈ logs -> event_id log' = event_id log -> log' = log) ->
  log ∈ unique_logs logs.
Proof.
  intros Hin Hcons.
  destruct (unique_logs_survivor logs log Hin) as (log' & Hin' & Hkey).
  rewrite <- (Hcons log'); auto using unique_logs_elem.
  apply log_key_event_id. exact Hkey.
Qed.
End Keys.

Section SetFacts.
Lemma Set_add_elem x s y : y ∈ Set_add x s <-> y = x \/ y ∈ s.
Proof.
  induction s as [|z s IH]; cbn [Set_add].
  - rewrite list_elem_of_singleton, elem_of_nil. tauto.
  - destruct (Z.eqb_spec z x) as [->|Hne].
    + rewrite elem_of_cons. tauto.
    + rewrite !elem_of_cons, IH. tauto.
Qed.

Lemma Set_of_elem arr y : y ∈ Set_of arr <-> y ∈ arr.
Proof.
  unfold Set_of.
  assert (H : forall s, y ∈ foldl (fun s x => Set_add x s) s arr <-> y ∈ s \/ y ∈ arr).
  { induction arr as [|x arr IH]; intros s; cbn [foldl].
    - rewrite elem_of_nil. tauto.
    - rewrite IH, Set_add_elem, elem_of_cons. tauto. }
  rewrite H, elem_of_nil. tauto.
Qed.
End SetFacts.

Section Sorting.
Context {A : Type} (compare : A -> A -> Z).

Lemma sort_insert_Permutation x l : sort_insert compare x l ≡ₚ x :: l.
Proof.
  induction l as [|y l IH]; cbn [sort_insert]; [reflexivity|].
  destruct (compare x y <=? 0); [reflexivity|].
  rewrite IH. apply Permutation_swap.
Qed.

Lemma Array_sort_Permutation l : Array_sort compare l ≡ₚ l.
Proof.
  induction l as [|x l IH]; [reflexivity|].
  cbn [Array_sort foldr]. fold (Array_sort compare l).
  rewrite sort_insert_Permutation, IH. reflexivity.
Qed.
End Sorting.

Section Descending.
Let by_time (a b : Transaction) : Z := timestamp b - timestamp a.

Lemma sort_insert_descending x l :
  StronglySorted newer_first l -> StronglySorted newer_first (sort_insert by_time x l).
Proof.
  induction 1 as [|y l Hl IH Hy]; cbn [sort_insert].
  - repeat constructor.
  - destruct (Z.leb_spec (by_time x y) 0) as [Hle|Hgt]; unfold by_time in *.
    + constructor; [constructor; assumption|].
      constructor; [unfold newer_first; lia|].
      eapply Forall_impl; [exact Hy|]. unfold newer_first. intros; lia.
    + constructor; [exact IH|].
      rewrite sort_insert_Permutation. constructor; [unfold newer_first; lia | exact Hy].
Qed.

Lemma Array_sort_descending l : StronglySorted newer_first (Array_sort by_time l).
Proof.
  induction l as [|x l IH]; [constructor|].
  cbn [Array_sort foldr]. apply sort_insert_descending, IH.
Qed.
End Descending.

Section Provenance.
Variable api : ReadAPI.
Variable Date_now : nat -> Z.
Variable address : string.

Lemma map_logs_derived blockMap reads logs :
  Forall2 (derived_from Date_now address blockMap) logs
          (map_logs Date_now address blockMap reads logs).
Proof.
  revert reads. induction logs as [|log logs IH]; intros reads; cbn [map_logs].
  - constructor.
  - destruct (blockMap !! blockNumber log) as [t|] eqn:Hb;
      [destruct (Z.eqb_spec t 0) as [Ht|Ht]|];
      (constructor; [|apply IH]); eexists; (split; [reflexivity|]);
      unfold stamped; rewrite Hb.
    + subst t. cbn. eauto.
    + destruct (Z.eqb_spec t 0); [contradiction | reflexivity].
    + eauto.
Qed.

Lemma derived_positive blockMap log tx :
  derived_from Date_now address blockMap log tx ->
  (0 < args_2 log)%N <-> gt0 (parseFloat (amount tx)) = true.
Proof.
  intros (ts & -> & _). cbn [amount toTransaction].
  symmetry. apply (formatUnits_positive (args_2 log) 5).
Qed.

Lemma Forall2_Permutation_r {X Y} (R : X -> Y -> Prop) l1 l2 l2' :
  Forall2 R l1 l2 -> l2 ≡ₚ l2' ->
  exists l1', l1' ≡ₚ l1 /\ Forall2 R l1' l2'.
Proof.
  intros HF Hp. revert l1 HF.
  induction Hp as [|y l2 l2' _ IH|y y' l2|l2 l2' l2'' _ IH1 _ IH2]; intros l1 HF.
  - inversion HF; subst. exists []. split; [reflexivity | constructor].
  - inversion HF as [|x ? l1' ? Hxy HF']; subst.
    destruct (IH _ HF') as (l1'' & Hp' & HF'').
    exists (x :: l1''). split; [constructor; exact Hp' | constructor; assumption].
  - inversion HF as [|x ? l1' ? Hxy HF']; subst.
    inversion HF' as [|x' ? l1'' ? Hxy' HF'']; subst.
    exists (x' :: x :: l1''). split; [apply Permutation_swap|].
    repeat constructor; assumption.
  - destruct (IH1 _ HF) as (l1' & Hp1 & HF1).
    destruct (IH2 _ HF1) as (l1'' & Hp2 & HF2).
    exists l1''. split; [etransitivity; eassumption | exact HF2].
Qed.

(** The returned entries are, one for one and in order, the Transactions
    of a rearrangement of the surviving events of nonzero value. *)
Lemma history_provenance head :
  let blockMap := block_times api (Set_of (blockNumber <$> surviving api head address)) in
  exists logs,
    logs ≡ₚ filter (fun log => (0 < args_2 log)%N) (surviving api head address)
    /\ Forall2 (derived_from Date_now address blockMap) logs
               (history api Date_now address head).
Proof.
  intros blockMap. unfold history. fold (surviving api head address). fold blockMap.
  eapply Forall2_Permutation_r.
  - eapply Forall2_filter; [|apply map_logs_derived].
    intros log tx H. apply (derived_positive _ _ _ H).
  - symmetry. apply Array_sort_Permutation.
Qed.

Lemma block_times_lookup blockNumbers bn :
  block_times api blockNumbers !! bn
  = if decide (bn ∈ blockNumbers) then resolved api bn else None.
Proof.
  unfold block_times. rewrite record_blocks_lookup, lookup_empty.
  destruct (resolved api bn), (decide _); reflexivity.
Qed.

Lemma history_descending head :
  StronglySorted newer_first (history api Date_now address head).
Proof. apply Array_sort_descending. Qed.
End Provenance.

(* ===================================================================== *)
(** * The queried sub-ranges *)
(* ===================================================================== *)

Section Ranges.
Lemma filter_none {A} (P : A -> Prop) `{forall x, Decision (P x)} (l : list A) :
  (forall x, x ∈ l -> ~ P x) -> filter P l = [].
Proof.
  induction l as [|x l IH]; intros Hl; [reflexivity|].
  rewrite filter_cons_False by (apply Hl; left).
  apply IH. intros y Hy. apply Hl. right. exact Hy.
Qed.

(** The sub-ranges start at [i] or later, and end at [head] at the latest. *)
Lemma ranges_from_bounds head i range :
  range ∈ ranges_from head i ->
  i <= Range.from range /\ Range.from range <= Range.to range
  /\ Range.to range <= head /\ Range.from range < head.
Proof.
  funelim (ranges_from head i); [|intros H; inversion H].
  rewrite elem_of_cons. intros [->|Hin]; cbn; unfold CHUNK_SIZE in *; [lia|].
  match goal with IH : forall _ : Range.t, _ |- _ => specialize (IH _ Hin) end. lia.
Qed.

Lemma ranges_from_none_below head i block :
  block < i ->
  filter (fun range => covers range block = true) (ranges_from head i) = [].
Proof.
  intros Hb. apply filter_none. intros range Hin%ranges_from_bounds.
  unfold covers. rewrite andb_true_iff, !Z.leb_le. lia.
Qed.

(** Every block from [i] up to, but excluding, the head block lies in
    exactly one sub-range. *)
Lemma ranges_from_cover head i block :
  i <= block < head ->
  length (filter (fun range => covers range block = true) (ranges_from head i)) = 1%nat.
Proof.
  funelim (ranges_from head i); intros Hb; [|lia].
  destruct (decide (block < i + CHUNK_SIZE)) as [Hlt|Hge].
  - rewrite filter_cons_True, ranges_from_none_below by
      (try exact Hlt; unfold covers, CHUNK_SIZE in *; cbn;
       rewrite andb_true_iff, !Z.leb_le; lia).
    reflexivity.
  - rewrite filter_cons_False by
      (unfold covers, CHUNK_SIZE in *; cbn; rewrite andb_true_iff, !Z.leb_le; lia).
    match goal with IH : forall _ : Z, _ |- _ => apply IH end. lia.
Qed.

(** When the window is a whole number of chunks, no sub-range reaches the
    head block: the loop stops at [i < currentBlock]. *)
Lemma ranges_from_miss_head head i range :
  (exists k, head = i + k * CHUNK_SIZE) ->
  range ∈ ranges_from head i -> covers range head = false.
Proof.
  funelim (ranges_from head i); intros [k Hk]; [|intros H; inversion H].
  rewrite elem_of_cons. intros [->|Hin].
  - unfold covers, CHUNK_SIZE in *. cbn. apply andb_false_iff. right.
    apply Z.leb_gt. lia.
  - match goal with IH : forall _ : Range.t, _ |- _ => apply IH; [|exact Hin] end.
    exists (k - 1). unfold CHUNK_SIZE in *. lia.
Qed.

Lemma queried_ranges_cover head block :
  Z.max 0 (head - SCAN_RANGE) <= block < head ->
  length (filter (fun range => covers range block = true) (queried_ranges head)) = 1%nat.
Proof. apply ranges_from_cover. Qed.

(** In the steady state (at least [SCAN_RANGE] blocks on the chain) the
    head block is in no queried sub-range. *)
Lemma queried_ranges_miss_head head range :
  SCAN_RANGE <= head ->
  range ∈ queried_ranges head -> covers range head = false.
Proof.
  intros Hhead. apply ranges_from_miss_head.
  exists 3. unfold SCAN_RANGE, CHUNK_SIZE in *. lia.
Qed.
End Ranges.

(* ===================================================================== *)
(** * Properties of the history *)
(* ===================================================================== *)

Section HistoryFacts.
Variable api : ReadAPI.
Variable Date_now : nat -> Z.
Variable address : string.

Lemma history_elem_positive head tx :
tx ∈ history api Date_now address head -> gt0 (parseFloat (amount tx)) = true.
Proof.
unfold history. rewrite Array_sort_Permutation.
intros [H _]%list_elem_of_filter. exact H.
Qed.

Lemma history_elem_derived head tx :
tx ∈ history api Date_now address head ->
exists log ts,
  log ∈ surviving api head address /\ (0 < args_2 log)%N
  /\ tx = toTransaction address log ts.
Proof.
intros Hin. destruct (history_provenance api Date_now address head) as (logs & Hperm & HF).
apply list_elem_of_lookup in Hin as [i Hi].
destruct (Forall2_lookup_r _ _ _ _ _ HF Hi) as (log & Hlog & ts & -> & _).
exists log, ts. apply list_elem_of_lookup_2 in Hlog. rewrite Hperm in Hlog.
apply list_elem_of_filter in Hlog as [Hpos Hin]. auto.
Qed.

(** A surviving event of nonzero value has its Transaction in the list. *)
Lemma history_contains head log :
log ∈ surviving api head address ->
(0 < args_2 log)%N ->
exists ts,
  stamped Date_now (block_times api (Set_of (blockNumber <$> surviving api head address)))
          log ts
  /\ toTransaction address log ts ∈ history api Date_now address head.
Proof.
intros Hin Hpos.
destruct (history_provenance api Date_now address head) as (logs & Hperm & HF).
assert (Hlog : log ∈ logs) by (rewrite Hperm; apply list_elem_of_filter; auto).
apply list_elem_of_lookup in Hlog as [i Hi].
destruct (Forall2_lookup_l _ _ _ _ _ HF Hi) as (tx & Htx & ts & -> & Hts).
exists ts. split; [exact Hts|]. eapply list_elem_of_lookup_2, Htx.
Qed.

Lemma chunk_in_window head filter range log :
range ∈ queried_ranges head ->
log ∈ chunk_logs api filter range ->
log ∈ window_logs api head filter.
Proof.
intros Hr Hl. unfold window_logs. apply list_elem_of_In, in_concat.
exists (chunk_logs api filter range). split; apply list_elem_of_In; [|exact Hl].
apply list_elem_of_fmap. eauto.
Qed.

Lemma window_logs_all_failed head filter :
(forall f lo hi, exists e, queryFilter api f lo hi = Throw e) ->
window_logs api head filter = [].
Proof.
intros Hfail. unfold window_logs.
induction (queried_ranges head) as [|range ranges IH]; [reflexivity|].
cbn. rewrite IH. unfold chunk_logs.
destruct (Hfail filter (Range.from range) (Range.to range)) as [e ->]. reflexivity.
Qed.
End HistoryFacts.

(** The list depends on the read-API only through what it delivers: the
    head block, the events of each queried sub-range under the two filters,
    and the timestamps of the blocks of the surviving events. *)
Lemma block_times_ext api1 api2 blockNumbers :
  (forall bn, bn ∈ blockNumbers -> resolved api1 bn = resolved api2 bn) ->
  block_times api1 blockNumbers = block_times api2 blockNumbers.
Proof.
  unfold block_times. generalize (∅ : gmap Z Z).
  induction blockNumbers as [|bn bns IH]; intros m Hres; [reflexivity|].
  cbn [foldl]. unfold record_block at 2 4.
  rewrite (Hres bn) by left. apply IH. intros bn' Hin. apply Hres. right. exact Hin.
Qed.

Lemma history_ext api1 api2 Date_now address head :
  (forall filter range,
      filter = Transfer None (Some address) \/ filter = Transfer (Some address) None ->
      range ∈ queried_ranges head ->
      chunk_logs api1 filter range = chunk_logs api2 filter range) ->
  (forall log, log ∈ surviving api1 head address ->
               resolved api1 (blockNumber log) = resolved api2 (blockNumber log)) ->
  history api1 Date_now address head = history api2 Date_now address head.
Proof.
  intros Hchunk Hres.
  assert (Hwin : forall filter,
             filter = Transfer None (Some address) \/ filter = Transfer (Some address) None ->
             window_logs api1 head filter = window_logs api2 head filter).
  { intros filter Hfilter. unfold window_logs. f_equal.
    apply list_fmap_ext. intros i range Hrange. apply Hchunk; [exact Hfilter|].
    eapply list_elem_of_lookup_2, Hrange. }
  assert (Hmerged : merged_logs api1 head address = merged_logs api2 head address).
  { unfold merged_logs. rewrite !Hwin by auto. reflexivity. }
  unfold history. unfold surviving in Hres. rewrite <- Hmerged.
  rewrite (block_times_ext api1 api2); [reflexivity|].
  intros bn Hbn. apply Set_of_elem, list_elem_of_fmap in Hbn as (log & -> & Hlog). auto.
Qed.

Lemma history_recovered api Date_now address head :
  history (recovered api) Date_now address head = history api Date_now address head.
Proof. apply history_ext; reflexivity. Qed.



Section Counting.
Context {A B : Type} `{EqDecision B} (f : A -> B).

Lemma NoDup_fmap_filter (P : A -> Prop) `{forall x, Decision (P x)} l :
NoDup (f <$> l) -> NoDup (f <$> filter P l).
Proof.
induction l as [|x l IH]; [intros; constructor|].
rewrite fmap_cons. intros [Hx Hl]%NoDup_cons. rewrite filter_cons.
destruct (decide (P x)); [|auto].
rewrite fmap_cons. apply NoDup_cons. split; [|auto].
intros (y & Hy & Hin)%list_elem_of_fmap. apply Hx.
apply list_elem_of_fmap. exists y. split; [exact Hy|].
apply list_elem_of_filter in Hin. tauto.
Qed.

Lemma NoDup_fmap_count l y :
NoDup (f <$> l) -> (length (filter (fun x => f x = y) l) <= 1)%nat.
Proof.
induction l as [|x l IH]; [cbn; lia|].
rewrite fmap_cons. intros [Hx Hl]%NoDup_cons. rewrite filter_cons.
destruct (decide (f x = y)) as [<-|]; [|auto].
rewrite filter_none; [cbn; lia|].
intros z Hz Hfz. apply Hx. apply list_elem_of_fmap. eauto.
Qed.
End Counting.

(* ===================================================================== *)
(** * The claims of the specification *)
(* ===================================================================== *)

(** C1. The window start is [max(0, head - 7500)] and the queried sub-ranges
    are consecutive chunks of 2,500 blocks, but they do not reach the head
    block: with head block 1,000,000 the three sub-ranges queried end at block
    999,999, no sub-range covers block 1,000,000, and a transfer committed in
    the head block is missing from the returned list. For every head block,
    each block of the window below the head lies in exactly one queried
    sub-range, and once the chain has 7,500 blocks the head block lies in
    none. *)
Theorem head_block_not_queried :
  Z.max 0 (1000000 - SCAN_RANGE) = 992500
  /\ queried_ranges 1000000
     = [ {| Range.from := 992500; Range.to := 994999 |};
         {| Range.from := 995000; Range.to := 997499 |};
         {| Range.from := 997500; Range.to := 999999 |} ]
  /\ existsb (fun range => covers range 1000000) (queried_ranges 1000000) = false
  /\ getRecentTransactions (ledger_api 1000000 [inbound_at_head] block_time up found)
                           fifo wall_clock alice
     = Normal []
  /\ (forall head block,
         Z.max 0 (head - SCAN_RANGE) <= block < head ->
         length (filter (fun range => covers range block = true) (queried_ranges head))
         = 1%nat)
  /\ (forall head range,
         SCAN_RANGE <= head -> range ∈ queried_ranges head -> covers range head = false).
Proof.
  split; [reflexivity|]. split; [vm_compute; reflexivity|].
  split; [vm_compute; reflexivity|]. split; [vm_compute; reflexivity|].
  split; [exact queried_ranges_cover | exact queried_ranges_miss_head].
Qed.

(** C2. [getRecentTransactions] never throws: it always returns a list, and
    it returns the empty list whenever the reconstruction throws, which it
    does exactly when the head-block lookup fails; it also returns the empty
    list when every filter query fails. *)
Theorem getRecentTransactions_never_throws api sched Date_now address :
  (exists txs, getRecentTransactions api sched Date_now address = Normal txs)
  /\ (forall e, reconstruct api sched Date_now address = Throw e ->
                getRecentTransactions api sched Date_now address = Normal [])
  /\ (forall e, reconstruct api sched Date_now address = Throw e <->
                getBlockNumber api = Throw e)
  /\ (forall e, getBlockNumber api = Throw e ->
                getRecentTransactions api sched Date_now address = Normal [])
  /\ ((forall filter lo hi, exists e, queryFilter api filter lo hi = Throw e) ->
      getRecentTransactions api sched Date_now address = Normal []).
Proof.
  repeat split.
  - rewrite getRecentTransactions_spec. destruct (getBlockNumber api); eauto.
  - intros e He. unfold getRecentTransactions. rewrite He. reflexivity.
  - intros He. destruct (getBlockNumber api) as [head|e'] eqn:Hhead.
    + rewrite (reconstruct_spec api sched Date_now address head Hhead) in He.
      discriminate He.
    + unfold reconstruct in He. rewrite Hhead in He.
      change (@Throw (list Transaction) e' = Throw e) in He.
      injection He as ->. reflexivity.
  - intros He. unfold reconstruct. rewrite He. reflexivity.
  - intros e He. rewrite getRecentTransactions_spec, He. reflexivity.
  - intros Hfail. rewrite getRecentTransactions_spec.
    destruct (getBlockNumber api) as [head|]; [|reflexivity].
    unfold history, merged_logs. rewrite !window_logs_all_failed by exact Hfail.
    reflexivity.
Qed.

Lemma getRecentTransactions_never_throws_witness :
  getRecentTransactions offline_api lifo wall_clock alice = Normal [].
Proof.
  refine (proj1 (proj2 (proj2 (proj2 (getRecentTransactions_never_throws
                                        offline_api lifo wall_clock alice))))
                "network error" _).
  reflexivity.
Defined.

(** C3, as the code has it. No two returned entries come from events with the
    same (transaction identifier, event position): the entries are, one for
    one, the Transactions of the surviving events of nonzero raw value, whose
    identities are pairwise distinct. For a
    self-transfer delivered by both filters the list holds at most one
    Transaction of that identity: exactly one when the raw value is nonzero,
    none when it is zero. *)
Theorem getRecentTransactions_unique api sched Date_now address :
  exists txs logs,
    getRecentTransactions api sched Date_now address = Normal txs
    /\ Forall2 (fun log tx => exists ts, tx = toTransaction address log ts) logs txs
    /\ (forall head,
          getBlockNumber api = Normal head ->
          logs ≡ₚ filter (fun log => (0 < args_2 log)%N) (surviving api head address))
    /\ NoDup (event_id <$> logs)
    /\ (forall id, (length (filter (fun log => event_id log = id) logs) <= 1)%nat)
    /\ (forall head log,
          getBlockNumber api = Normal head ->
          log ∈ window_logs api head (Transfer None (Some address)) ->
          log ∈ window_logs api head (Transfer (Some address) None) ->
          (forall log', log' ∈ merged_logs api head address ->
                        event_id log' = event_id log -> log' = log) ->
          length (filter (fun l => event_id l = event_id log) logs)
          = if (args_2 log =? 0)%N then 0%nat else 1%nat).
Proof.
  rewrite getRecentTransactions_spec.
  destruct (getBlockNumber api) as [head|] eqn:Hhead.
  - destruct (history_provenance api Date_now address head) as (logs & Hperm & HF).
    assert (Hnd : NoDup (event_id <$> logs)).
    { rewrite Hperm. apply NoDup_fmap_filter, unique_logs_NoDup_id. }
    exists (history api Date_now address head), logs.
    split; [reflexivity|]. split; [|split; [|split; [exact Hnd|split]]].
    + eapply Forall2_impl; [exact HF|]. intros log tx (ts & -> & _). eauto.
    + intros head' [= <-]. exact Hperm.
    + intros id. apply NoDup_fmap_count, Hnd.
    + intros head' log [= <-] Hin Hout Hcons.
      assert (Hmerged : log ∈ merged_logs api head address)
        by (apply elem_of_app; left; exact Hin).
      destruct (N.eqb_spec (args_2 log) 0) as [Hzero|Hpos].
      * rewrite filter_none; [reflexivity|].
        intros l Hl Hid. rewrite Hperm in Hl.
        apply list_elem_of_filter in Hl as [Hpos Hl].
        apply unique_logs_elem in Hl. rewrite (Hcons l Hl Hid) in Hpos. lia.
      * assert (Hlog : log ∈ logs).
        { rewrite Hperm. apply list_elem_of_filter. split; [lia|].
          apply unique_logs_consistent; assumption. }
        pose proof (NoDup_fmap_count event_id logs (event_id log) Hnd) as Hle.
        assert (Hin' : log ∈ filter (fun l => event_id l = event_id log) logs)
          by (apply list_elem_of_filter; auto).
        destruct (filter _ logs); [inversion Hin' | cbn in *; lia].
  - exists [], []. split; [reflexivity|]. split; [constructor|].
    split; [intros; discriminate|].
    split; [constructor|]. split; [intros; cbn; lia | intros; discriminate].
Qed.

Lemma getRecentTransactions_unique_witness :
  exists txs logs,
    getRecentTransactions busy_api lifo wall_clock alice = Normal txs
    /\ Forall2 (fun log tx => exists ts, tx = toTransaction alice log ts) logs txs
    /\ length (filter (fun l => event_id l = event_id self_transfer) logs) = 1%nat
    /\ length (filter (fun l => event_id l = event_id zero_self_transfer) logs) = 0%nat.
Proof.
  destruct (getRecentTransactions_unique busy_api lifo wall_clock alice)
    as (txs & logs & Htxs & HF & _ & _ & _ & Hself).
  exists txs, logs. split; [exact Htxs|]. split; [exact HF|].
  split; (rewrite (Hself 10000);
          [reflexivity | reflexivity
           | apply list_elem_of_In; vm_compute; tauto
           | apply list_elem_of_In; vm_compute; tauto |]);
    intros log' Hin Hid; apply list_elem_of_In in Hin; vm_compute in Hin;
    repeat (destruct Hin as [<-|Hin]; [first [reflexivity | discriminate Hid]|]);
    contradiction.
Defined.

(** A self-transfer of zero raw value, delivered by both filters, has no
    Transaction in the returned list. *)
Lemma zero_self_transfer_unlisted :
  let api := ledger_api 10000 [zero_self_transfer] block_time up found in
  zero_self_transfer ∈ window_logs api 10000 (Transfer None (Some alice))
  /\ zero_self_transfer ∈ window_logs api 10000 (Transfer (Some alice) None)
  /\ getRecentTransactions api fifo wall_clock alice = Normal [].
Proof.
  cbv zeta. split; [|split].
  - apply list_elem_of_In. vm_compute. tauto.
  - apply list_elem_of_In. vm_compute. tauto.
  - vm_compute. reflexivity.
Qed.

(** C4. The returned list is sorted non-increasing by timestamp: each entry's
    timestamp is at least the next entry's, and at least that of every later
    entry. *)
Theorem getRecentTransactions_sorted api sched Date_now address :
  exists txs,
    getRecentTransactions api sched Date_now address = Normal txs
    /\ Sorted newer_first txs
    /\ StronglySorted newer_first txs.
Proof.
  rewrite getRecentTransactions_spec.
  destruct (getBlockNumber api) as [head|];
    (eexists; split; [reflexivity|]).
  - split; [apply StronglySorted_Sorted|]; apply history_descending.
  - split; constructor.
Qed.

(** C5. Every returned entry has an amount strictly greater than zero and
    comes from a surviving event of nonzero raw value; no Transaction of an
    event whose raw value is zero is in the list. *)
Theorem getRecentTransactions_amounts_positive api sched Date_now address :
  exists txs,
    getRecentTransactions api sched Date_now address = Normal txs
    /\ Forall (fun tx =>
                 (exists q, parseFloat (amount tx) = Some q /\ (0 < q)%Q)
                 /\ exists head log ts,
                      getBlockNumber api = Normal head
                      /\ log ∈ surviving api head address
                      /\ tx = toTransaction address log ts /\ (0 < args_2 log)%N)
              txs
    /\ (forall log ts, args_2 log = 0%N -> toTransaction address log ts ∉ txs).
Proof.
  rewrite getRecentTransactions_spec.
  destruct (getBlockNumber api) as [head|] eqn:Hhead;
    (eexists; split; [reflexivity|]).
  - split.
    + apply Forall_forall. intros tx Hin. split.
      * apply history_elem_positive in Hin.
        destruct (parseFloat (amount tx)) as [q|]; [|discriminate].
        exists q. split; [reflexivity|].
        cbn in Hin. apply Z.ltb_lt in Hin. unfold Qlt. cbn. lia.
      * apply history_elem_derived in Hin as (log & ts & Hlog & Hpos & ->).
        exists head, log, ts. auto.
    + intros log ts Hzero Hin. apply history_elem_positive in Hin.
      cbn [amount toTransaction] in Hin.
      apply (formatUnits_positive (args_2 log) 5) in Hin. lia.
  - split; [constructor|]. intros log ts _ H. inversion H.
Qed.

Lemma getRecentTransactions_amounts_positive_witness :
  toTransaction alice zero_received 0
  ∉ [toTransaction alice received (wall_clock 0);
     toTransaction alice self_transfer 1700016000000].
Proof.
  destruct (getRecentTransactions_amounts_positive busy_api lifo wall_clock alice)
    as (txs & Htxs & _ & Hzero).
  vm_compute in Htxs. injection Htxs as <-.
  exact (Hzero zero_received 0 eq_refl).
Defined.

(** C6. The Transaction derived from an event has direction [in] exactly when
    the event's recipient equals the queried account after lower-casing both
    (otherwise [out]), an amount that denotes the raw value divided by 10^6
    (5,000,000 gives "5.0"), and status [confirmed]; every returned entry is
    the Transaction so derived from a surviving event. In the end-to-end
    scenario (head block 1,000,000, one inbound event of raw amount 5,000,000
    at block 999,000) the call returns that one Transaction: [in], "5.0",
    [confirmed]. *)
Theorem getRecentTransactions_mapping api sched Date_now address :
  (forall log ts,
      let tx := toTransaction address log ts in
      hash tx = transactionHash log
      /\ (type tx = type_in <-> toLowerCase (args_1 log) = toLowerCase address)
      /\ (type tx = type_out <-> toLowerCase (args_1 log) <> toLowerCase address)
      /\ amount tx = formatUnits (Z.of_N (args_2 log)) 6
      /\ (exists q, parseFloat (amount tx) = Some q
                    /\ (q == Z.of_N (args_2 log) # 1000000)%Q)
      /\ status tx = confirmed)
  /\ formatUnits 5000000 6 = "5.0"
  /\ getRecentTransactions (ledger_api 1000000 [inbound_5] block_time up found)
                           fifo wall_clock alice
     = Normal [ {| hash := "0xfeed"; type := type_in; amount := "5.0";
                   timestamp := block_time 999000 * 1000; status := confirmed;
                   to := Some alice_lower; from := Some bob |} ]
  /\ exists txs,
       getRecentTransactions api sched Date_now address = Normal txs
       /\ Forall (fun tx =>
                    exists head log ts,
                      getBlockNumber api = Normal head
                      /\ log ∈ surviving api head address
                      /\ tx = toTransaction address log ts)
                 txs.
Proof.
  split; [|split; [reflexivity|split; [vm_compute; reflexivity|]]].
  - intros log ts tx. subst tx. cbn [hash type amount status toTransaction].
    split; [reflexivity|]. split; [|split; [|split; [reflexivity|split; [|reflexivity]]]].
    + destruct (String.eqb_spec (toLowerCase (args_1 log)) (toLowerCase address));
        split; intros; try assumption; try reflexivity; try discriminate; contradiction.
    + destruct (String.eqb_spec (toLowerCase (args_1 log)) (toLowerCase address));
        split; intros; try assumption; try reflexivity; try discriminate; contradiction.
    + exact (formatUnits_value_Q (args_2 log) 5).
  - rewrite getRecentTransactions_spec.
    destruct (getBlockNumber api) as [head|] eqn:Hhead;
      (eexists; split; [reflexivity|]); [|constructor].
    apply Forall_forall. intros tx Hin.
    apply history_elem_derived in Hin as (log & ts & Hin & _ & ->).
    exists head, log, ts. auto.
Qed.

(** C7, as the code has it. A failing sub-range query contributes no events:
    the call returns what it would return had the query answered with an
    empty list, and the returned list holds the Transaction of every event of
    nonzero raw value fetched from a succeeding sub-range, however many other
    sub-range queries fail. *)
Theorem getRecentTransactions_partial_failure
        api sched Date_now address head filter range logs log :
  getBlockNumber api = Normal head ->
  filter = Transfer None (Some address) \/ filter = Transfer (Some address) None ->
  range ∈ queried_ranges head ->
  queryFilter api filter (Range.from range) (Range.to range) = Normal logs ->
  log ∈ logs ->
  (0 < args_2 log)%N ->
  (forall log', log' ∈ merged_logs api head address ->
                event_id log' = event_id log -> log' = log) ->
  getRecentTransactions api sched Date_now address
  = getRecentTransactions (recovered api) sched Date_now address
  /\ exists txs ts,
       getRecentTransactions api sched Date_now address = Normal txs
       /\ toTransaction address log ts ∈ txs.
Proof.
  intros Hhead Hfilter Hrange Hquery Hlog Hpos Hcons. split.
  - rewrite !getRecentTransactions_spec. cbn [getBlockNumber recovered].
    destruct (getBlockNumber api); [|reflexivity].
    rewrite history_recovered. reflexivity.
  - rewrite getRecentTransactions_spec, Hhead.
    assert (Hwin : log ∈ window_logs api head filter).
    { apply (chunk_in_window api head filter range); [exact Hrange|].
      unfold chunk_logs. rewrite Hquery. exact Hlog. }
    assert (Hmerged : log ∈ merged_logs api head address).
    { unfold merged_logs. apply elem_of_app.
      destruct Hfilter as [<-|<-]; [left | right]; exact Hwin. }
    destruct (history_contains api Date_now address head log) as (ts & _ & Hin);
      [apply unique_logs_consistent; assumption | exact Hpos |].
    eauto.
Qed.

Lemma getRecentTransactions_partial_failure_witness :
  queryFilter busy_api (Transfer None (Some alice)) 5000 7499 = Throw "rate limited"
  /\ getRecentTransactions busy_api lifo wall_clock alice
     = getRecentTransactions (recovered busy_api) lifo wall_clock alice
  /\ exists txs ts,
       getRecentTransactions busy_api lifo wall_clock alice = Normal txs
       /\ toTransaction alice received ts ∈ txs.
Proof.
  split; [reflexivity|].
  apply (getRecentTransactions_partial_failure
           busy_api lifo wall_clock alice 10000 (Transfer None (Some alice))
           {| Range.from := 2500; Range.to := 4999 |} [received; zero_received] received).
  - reflexivity.
  - left. reflexivity.
  - apply list_elem_of_In. vm_compute. tauto.
  - vm_compute. reflexivity.
  - left.
  - reflexivity.
  - intros log' Hin Hid. apply list_elem_of_In in Hin. vm_compute in Hin.
    repeat (destruct Hin as [<-|Hin]; [first [reflexivity | discriminate Hid]|]).
    contradiction.
Defined.

(** One sub-range query fails, the five others succeed, and an event of zero
    raw value fetched from a succeeding sub-range is not in the returned
    list. *)
Lemma zero_event_of_succeeding_range_unlisted :
  let api := ledger_api 10000 [zero_received; self_transfer] block_time
                        recipient_middle_down found in
  let filterIn := Transfer None (Some alice) in
  let filterOut := Transfer (Some alice) None in
  queryFilter api filterIn 5000 7499 = Throw "rate limited"
  /\ queryFilter api filterIn 2500 4999 = Normal [zero_received]
  /\ queryFilter api filterIn 7500 9999 = Normal [self_transfer]
  /\ queryFilter api filterOut 2500 4999 = Normal []
  /\ queryFilter api filterOut 5000 7499 = Normal []
  /\ queryFilter api filterOut 7500 9999 = Normal [self_transfer]
  /\ getRecentTransactions api fifo wall_clock alice
     = Normal [toTransaction alice self_transfer 1700016000000].
Proof. vm_compute. repeat split; reflexivity. Qed.

(** C8, as the code has it. When the block-detail lookup of a surviving
    event's block fails, the event is not dropped for it: if its raw value is
    nonzero, its Transaction is in the returned list, stamped with a reading of
    the clock. *)
Theorem getRecentTransactions_fallback_timestamp
        api sched Date_now address head log e :
  getBlockNumber api = Normal head ->
  log ∈ surviving api head address ->
  getBlock api (blockNumber log) = Throw e ->
  (0 < args_2 log)%N ->
  exists txs k,
    getRecentTransactions api sched Date_now address = Normal txs
    /\ toTransaction address log (Date_now k) ∈ txs.
Proof.
  intros Hhead Hlog Hblock Hpos.
  rewrite getRecentTransactions_spec, Hhead.
  destruct (history_contains api Date_now address head log Hlog Hpos) as (ts & Hts & Hin).
  unfold stamped in Hts. rewrite block_times_lookup in Hts.
  unfold resolved in Hts. rewrite Hblock in Hts.
  destruct (decide _); destruct Hts as [k ->]; eauto.
Qed.

Lemma getRecentTransactions_fallback_timestamp_witness :
  exists txs k,
    getRecentTransactions busy_api lifo wall_clock alice = Normal txs
    /\ toTransaction alice received (wall_clock k) ∈ txs.
Proof.
  apply (getRecentTransactions_fallback_timestamp
           busy_api lifo wall_clock alice 10000 received "timeout").
  - reflexivity.
  - apply list_elem_of_In. vm_compute. tauto.
  - reflexivity.
  - reflexivity.
Defined.

(** The lookup of block 3500 fails, and the event of zero raw value committed
    in it is not in the returned list. *)
Lemma zero_event_of_lost_block_unlisted :
  let api := ledger_api 10000 [zero_received; self_transfer] block_time up early_lost in
  getBlock api (blockNumber zero_received) = Throw "timeout"
  /\ zero_received ∈ surviving api 10000 alice
  /\ getRecentTransactions api fifo wall_clock alice
     = Normal [toTransaction alice self_transfer 1700016000000].
Proof.
  cbv zeta. split; [reflexivity|]. split.
  - apply list_elem_of_In. vm_compute. tauto.
  - vm_compute. reflexivity.
Qed.




(** C10. The balance queries never throw: each returns a string, and returns
    "0.00" when the provider or the contract call fails. *)
Theorem balances_never_throw api address :
  (exists s, getETHBalance api address = Normal s)
  /\ (exists s, getUSDCBalance api address = Normal s)
  /\ (forall e, getBalance api address = Throw e ->
                getETHBalance api address = Normal "0.00")
  /\ (forall e, balanceOf api address = Throw e ->
                getUSDCBalance api address = Normal "0.00").
Proof.
  unfold getETHBalance, getUSDCBalance. repeat split.
  - destruct (getBalance api address); cbn; eauto.
  - destruct (balanceOf api address); cbn; eauto.
  - intros e ->. reflexivity.
  - intros e ->. reflexivity.
Qed.

Lemma balances_never_throw_witness :
  getETHBalance offline_api alice = Normal "0.00"
  /\ getUSDCBalance offline_api alice = Normal "0.00".
Proof.
  destruct (balances_never_throw offline_api alice) as (_ & _ & Heth & Husdc).
  split; [exact (Heth "network error" eq_refl) | exact (Husdc "network error" eq_refl)].
Defined.

(* ===================================================================== *)
(** * Amounts: [parseUnits] against [formatUnits] and [parseFloat] *)
(* ===================================================================== *)

Section Units.

Lemma digit_of_is_digit c d : digit_of c = Some d -> is_digit c.
Proof.
  unfold is_digit, digit_of, digit_value.
  destruct (_ && _)%bool; [|discriminate]. reflexivity.
Qed.

Lemma is_digit_digit_of c : is_digit c -> exists d, digit_of c = Some d.
Proof. intros H. eexists. exact H. Qed.

Lemma span_digits_run run rest :
  Forall is_digit run ->
  match rest with [] => True | c :: _ => digit_of c = None end ->
  span_digits (run ++ rest) = (run, rest).
Proof.
  intros Hrun Hrest. induction Hrun as [|c run Hc _ IH]; cbn [app span_digits].
  - destruct rest as [|c rest]; [reflexivity|]. cbn [span_digits].
    rewrite Hrest. reflexivity.
  - rewrite Hc, IH. reflexivity.
Qed.

Lemma span_digits_spec l run rest :
  span_digits l = (run, rest) ->
  l = run ++ rest /\ Forall is_digit run
  /\ match rest with [] => True | c :: _ => digit_of c = None end.
Proof.
  revert run rest. induction l as [|c l IH]; intros run rest; cbn [span_digits].
  - intros [= <- <-]. auto.
  - destruct (digit_of c) eqn:Ec.
    + destruct (span_digits l) as [run' rest'] eqn:E. intros [= <- <-].
      destruct (IH _ _ eq_refl) as (-> & Hrun & Hrest).
      split; [reflexivity|]. split; [|exact Hrest].
      constructor; [eapply digit_of_is_digit; eauto|exact Hrun].
    + intros [= <- <-]. cbn [app]. auto.
Qed.

Lemma all_digits_Forall l : all_digits l = true <-> Forall is_digit l.
Proof.
  unfold all_digits. rewrite forallb_forall, Forall_forall. 
  split; intros H c Hc.
  - apply list_elem_of_In in Hc. specialize (H c Hc).
    destruct (digit_of c) eqn:E; [|discriminate]. eapply digit_of_is_digit; eauto.
  - apply list_elem_of_In in Hc. specialize (H c Hc). unfold is_digit in H.
    cbv beta. rewrite H. reflexivity.
Qed.

(** The strings the pattern accepts, and the groups it yields. *)
Lemma match_number_digits negative whole decimal point :
  Forall is_digit whole -> Forall is_digit decimal ->
  (point = false -> decimal = []) ->
  match_number (sign_chars negative ++ whole ++ point_chars point decimal)
  = Some (negative, whole, decimal).
Proof.
  intros Hw Hd Hp. unfold match_number.
  assert (Hrest : match point_chars point decimal with
                  | [] => True | c :: _ => digit_of c = None end).
  { destruct point; cbn; auto. }
  assert (Hsign : (let '(n, l) :=
             match sign_chars negative ++ whole ++ point_chars point decimal with
             | c :: l' => if Ascii.eqb c "-" then (true, l')
                          else (false, sign_chars negative ++ whole ++ point_chars point decimal)
             | [] => (false, sign_chars negative ++ whole ++ point_chars point decimal)
             end in (n, l)) = (negative, whole ++ point_chars point decimal)).
  { destruct negative; cbn [sign_chars app]; [reflexivity|].
    destruct whole as [|c whole]; cbn [app].
    - destruct point; cbn [point_chars]; reflexivity.
    - rewrite (is_digit_not c "-" (Forall_inv Hw) eq_refl). reflexivity. }
  destruct (match sign_chars negative ++ whole ++ point_chars point decimal with
            | c :: l' => _ | [] => _ end) as [n l].
  injection Hsign as -> ->.
  rewrite (span_digits_run _ _ Hw Hrest).
  destruct point; cbn [point_chars].
  - change (Ascii.eqb "." ".") with true. cbv iota.
    apply all_digits_Forall in Hd. rewrite Hd. reflexivity.
  - rewrite (Hp eq_refl). reflexivity.
Qed.

Lemma match_number_spec l negative whole decimal :
  match_number l = Some (negative, whole, decimal) ->
  Forall is_digit whole /\ Forall is_digit decimal
  /\ exists point, (point = false -> decimal = [])
       /\ l = sign_chars negative ++ whole ++ point_chars point decimal.
Proof.
  unfold match_number.
  assert (Hsign : exists n l', (match l with
             | c :: l' => if Ascii.eqb c "-" then (true, l') else (false, l)
             | [] => (false, l)
             end) = (n, l') /\ l = sign_chars n ++ l').
  { destruct l as [|c l]; [exists false, []; auto|].
    destruct (Ascii.eqb c "-") eqn:E.
    - apply Ascii.eqb_eq in E as ->. exists true, l. auto.
    - exists false, (c :: l). auto. }
  destruct Hsign as (n & l' & -> & ->).
  destruct (span_digits l') as [run rest] eqn:E.
  apply span_digits_spec in E as (-> & Hrun & Hrest).
  destruct (all_digits _) eqn:Hall; [|discriminate].
  intros [= -> -> <-]. apply all_digits_Forall in Hall.
  split; [exact Hrun|]. split; [exact Hall|].
  destruct rest as [|c rest].
  - exists false. split; [reflexivity|]. reflexivity.
  - destruct (Ascii.eqb c ".") eqn:Ec.
    + apply Ascii.eqb_eq in Ec as ->. exists true. split; [discriminate|reflexivity].
    + apply Forall_inv in Hall. unfold is_digit in Hall. congruence.
Qed.

Lemma pad_zeros_take decimal decimals :
  take decimals (pad_zeros decimal decimals)
  = take decimals decimal ++ replicate (decimals - length decimal) "0"%char.
Proof.
  unfold pad_zeros. rewrite take_app.
  rewrite take_replicate. do 2 f_equal.
  pose proof (Nat.div_mod_eq (decimals - length decimal + 3) 4).
  pose proof (Nat.mod_upper_bound (decimals - length decimal + 3) 4). lia.
Qed.

Lemma all_zeros_replicate n : all_zeros (replicate n "0"%char) = true.
Proof. induction n; [reflexivity|]. cbn. exact IHn. Qed.

Lemma all_zeros_spec l : all_zeros l = true -> l = replicate (length l) "0"%char.
Proof.
  induction l as [|c l IH]; [reflexivity|]. cbn [all_zeros forallb].
  intros [Hc Hl]%andb_prop. apply Ascii.eqb_eq in Hc as <-.
  cbn [length replicate]. f_equal. apply IH, Hl.
Qed.

Lemma pad_zeros_drop decimal decimals :
  all_zeros (drop decimals (pad_zeros decimal decimals))
  = all_zeros (drop decimals decimal).
Proof.
  unfold pad_zeros. rewrite drop_app. unfold all_zeros at 1.
  rewrite forallb_app. fold (all_zeros (drop decimals decimal)).
  rewrite drop_replicate. fold (all_zeros (replicate
    (4 * ((decimals - length decimal + 3) / 4) - (decimals - length decimal)) "0"%char)).
  rewrite all_zeros_replicate. apply andb_true_r.
Qed.

Lemma digits_value_whole whole rest :
  digits_value 0 (match whole with [] => ["0"%char] | _ => whole end ++ rest)
  = digits_value 0 (whole ++ rest).
Proof. destruct whole; reflexivity. Qed.

(** What [parseUnits] computes on a literal. *)
Lemma parseUnits_literal negative whole point decimal decimals :
  Forall is_digit whole -> Forall is_digit decimal ->
  (point = false -> decimal = []) ->
  (0 < length whole + length decimal)%nat ->
  parseUnits (literal negative whole point decimal) decimals
  = if all_zeros (drop decimals decimal)
    then if checkValue (units_of negative whole decimal decimals)
         then Done (units_of negative whole decimal decimals)
         else Failed (makeError "overflow" "NUMERIC_FAULT")
    else Failed (makeError "too many decimals for format" "NUMERIC_FAULT").
Proof.
  intros Hw Hd Hp Hlen. unfold parseUnits, literal.
  rewrite list_ascii_of_string_of_list_ascii, (match_number_digits _ _ _ _ Hw Hd Hp).
  destruct (length whole + length decimal =? 0)%nat eqn:E;
    [apply Nat.eqb_eq in E; lia|].
  rewrite pad_zeros_drop, pad_zeros_take.
  assert (Hv : BigInt negative
                 (match whole with [] => ["0"%char] | _ => whole end
                  ++ take decimals decimal ++ replicate (decimals - length decimal) "0"%char)
               = units_of negative whole decimal decimals).
  { unfold BigInt, units_of. rewrite digits_value_whole.
    rewrite digits_value_app, digits_value_shift.
    rewrite length_app, length_take, length_replicate.
    rewrite digits_value_app.
    rewrite <- (app_nil_r (replicate _ _)), digits_value_zeros.
    cbn [digits_value foldl].
    replace (length decimal `min` decimals + (decimals - length decimal))%nat
      with decimals by lia.
    replace (decimals `min` length decimal + (decimals - length decimal))%nat
      with decimals by lia.
    reflexivity. }
  rewrite Hv. reflexivity.
Qed.

(** What [parseFloat] reads in a literal. *)
Lemma parseFloat_literal negative whole point decimal :
  Forall is_digit whole -> Forall is_digit decimal ->
  (point = false -> decimal = []) ->
  (0 < length whole + length decimal)%nat ->
  parseFloat (literal negative whole point decimal)
  = Some (Qmake (let m := Z.of_N (digits_value (digits_value 0 whole) decimal) in
                 if negative then - m else m)
                (scale10 (length decimal))).
Proof.
  intros Hw Hd Hp Hlen. unfold parseFloat, literal.
  rewrite list_ascii_of_string_of_list_ascii.
  assert (Hrest : match point_chars point decimal with
                  | [] => True | c :: _ => digit_of c = None end).
  { destruct point; cbn; auto. }
  assert (Hsign : (match sign_chars negative ++ whole ++ point_chars point decimal with
             | c :: l' => if Ascii.eqb c "-" then (true, l')
                          else if Ascii.eqb c "+" then (false, l')
                          else (false, sign_chars negative ++ whole ++ point_chars point decimal)
             | [] => (false, sign_chars negative ++ whole ++ point_chars point decimal)
             end) = (negative, whole ++ point_chars point decimal)).
  { destruct negative; cbn [sign_chars app]; [reflexivity|].
    destruct whole as [|c whole]; cbn [app].
    - destruct point; cbn [point_chars]; reflexivity.
    - rewrite (is_digit_not c "-" (Forall_inv Hw) eq_refl),
        (is_digit_not c "+" (Forall_inv Hw) eq_refl). reflexivity. }
  rewrite Hsign. rewrite (scan_digits_run _ _ _ _ Hw).
  destruct point; cbn [point_chars].
  - rewrite scan_digits_stop by reflexivity.
    change (Ascii.eqb "." ".") with true. cbv iota.
    rewrite <- (app_nil_r decimal) at 1. rewrite (scan_digits_run _ _ _ _ Hd).
    cbn [scan_digits Nat.add].
    destruct (_ =? 0)%nat eqn:E; [apply Nat.eqb_eq in E; lia|]. reflexivity.
  - rewrite (Hp eq_refl) in *. cbn [scan_digits Nat.add length].
    destruct (_ =? 0)%nat eqn:E; [apply Nat.eqb_eq in E; cbn in Hlen; lia|].
    reflexivity.
Qed.

Lemma Number_toString_nonempty n : list_ascii_of_string (Number_toString n) <> [].
Proof.
  unfold Number_toString, NilZero.string_of_uint.
  destruct (N.to_uint n); discriminate.
Qed.

(** The literal [formatUnits] prints, and how its digits make up the value. *)
Lemma formatUnits_literal (value : Z) (decimals : nat) :
  exists whole point decimal,
    formatUnits value decimals = literal (value <? 0) whole point decimal
    /\ Forall is_digit whole /\ Forall is_digit decimal
    /\ (point = false -> decimal = [])
    /\ whole <> [] /\ (length decimal <= decimals)%nat
    /\ Z.abs_N value
       = (digits_value 0 whole * 10 ^ N.of_nat decimals
          + digits_value 0 decimal * 10 ^ N.of_nat (decimals - length decimal))%N.
Proof.
  unfold formatUnits, literal.
  assert (Hsign : (if value <? 0 then ["-"%char] else []) = sign_chars (value <? 0))
    by reflexivity.
  rewrite Hsign.
  set (str := list_ascii_of_string (Number_toString (Z.abs_N value))).
  destruct decimals as [|d].
  - exists str, false, []. cbn [point_chars]. rewrite app_nil_r.
    split; [reflexivity|]. split; [apply Number_toString_digits|].
    split; [constructor|]. split; [reflexivity|].
    split; [apply Number_toString_nonempty|]. split; [cbn; lia|].
    unfold str. rewrite Number_toString_value. cbn. lia.
  - set (padded := replicate (S (S d) - length str) "0"%char ++ str).
    set (index := (length padded - S d)%nat).
    assert (Hdig : Forall is_digit padded).
    { apply Forall_app. split; [|apply Number_toString_digits].
      apply Forall_replicate. apply is_digit_0. }
    assert (Hval : digits_value 0 padded = Z.abs_N value).
    { unfold padded. rewrite digits_value_zeros. apply Number_toString_value. }
    assert (Hlen : (S (S d) <= length padded)%nat).
    { unfold padded. rewrite length_app, length_replicate. lia. }
    pose proof (take_drop index padded) as Hsplit.
    set (W := take index padded) in *. set (F := drop index padded) in *.
    assert (HlenF : length F = S d) by (unfold F, index; rewrite length_drop; lia).
    assert (HW : W <> []).
    { intros E. apply (f_equal (@length ascii)) in E. unfold W in E.
      rewrite length_take in E. simpl in E. unfold index in E. lia. }
    assert (HdW : Forall is_digit W)
      by (rewrite <- Hsplit in Hdig; apply Forall_app in Hdig; tauto).
    assert (HdF : Forall is_digit F)
      by (rewrite <- Hsplit in Hdig; apply Forall_app in Hdig; tauto).
    destruct (trim_trailing_zeros_split F) as [z Hz].
    exists (trim_leading_zeros W), true, (trim_trailing_zeros F).
    split; [reflexivity|].
    split; [apply trim_leading_zeros_digits, HdW|].
    split; [apply trim_trailing_zeros_digits, HdF|].
    split; [discriminate|].
    split; [apply trim_leading_zeros_nonempty, HW|].
    assert (Hd : S d = (length (trim_trailing_zeros F) + z)%nat).
    { rewrite <- HlenF. rewrite Hz at 1. rewrite length_app, length_replicate. reflexivity. }
    split; [lia|].
    rewrite trim_leading_zeros_value.
    replace (S d - length (trim_trailing_zeros F))%nat with z by lia.
    rewrite <- Hval, <- Hsplit, digits_value_app, digits_value_shift, HlenF.
    f_equal. rewrite Hz at 1. rewrite digits_value_app.
    rewrite <- (app_nil_r (replicate z "0"%char)), digits_value_zeros. reflexivity.
Qed.

End Units.

(* ===================================================================== *)
(** * Amounts read and printed *)
(* ===================================================================== *)

(** X1. [parseUnits] reads back what [formatUnits] prints: for every number
    of decimals and every value a signed 512-bit format holds, parsing the
    printed string gives the value again. *)
Theorem parseUnits_formatUnits (value : Z) (decimals : nat) :
  - 2 ^ 511 <= value < 2 ^ 511 ->
  parseUnits (formatUnits value decimals) decimals = Done value.
Proof.
  intros Hrange.
  destruct (formatUnits_literal value decimals)
    as (whole & point & decimal & -> & Hw & Hd & Hp & Hne & Hlen & Hval).
  rewrite parseUnits_literal; try assumption.
  2:{ destruct whole; [congruence|]. cbn [length]. lia. }
  rewrite drop_ge by exact Hlen. cbn [all_zeros forallb].
  assert (Hv : units_of (value <? 0) whole decimal decimals = value).
  { unfold units_of. rewrite take_ge by exact Hlen. rewrite <- Hval.
    rewrite N2Z.inj_abs_N. destruct (Z.ltb_spec value 0); lia. }
  rewrite Hv. unfold checkValue.
  destruct Hrange as [Hlo Hhi].
  apply Z.leb_le in Hlo. apply Z.ltb_lt in Hhi. rewrite Hlo, Hhi. reflexivity.
Qed.

Lemma parseUnits_formatUnits_witness :
  parseUnits (formatUnits 1234500 6) 6 = Done 1234500
  /\ parseUnits (formatUnits (-1) 18) 18 = Done (-1).
Proof.
  split.
  - apply (parseUnits_formatUnits 1234500 6).
    split; [vm_compute; discriminate | vm_compute; reflexivity].
  - apply (parseUnits_formatUnits (-1) 18).
    split; [vm_compute; discriminate | vm_compute; reflexivity].
Defined.

(** X2. [parseUnits] never rounds: when it returns [units] for a string,
    the string is a decimal literal whose exact value, as [parseFloat] reads
    it, is [units / 10^decimals]. *)
Theorem parseUnits_exact (value : string) (decimals : nat) (units : Z) :
  parseUnits value decimals = Done units ->
  exists q, parseFloat value = Some q /\ Qeq q (units # scale10 decimals).
Proof.
  unfold parseUnits.
  destruct (match_number (list_ascii_of_string value))
    as [[[negative whole] decimal]|] eqn:Hmatch; [|discriminate].
  apply match_number_spec in Hmatch as (Hw & Hd & point & Hp & Hl).
  destruct (length whole + length decimal =? 0)%nat eqn:Hlen; [discriminate|].
  apply Nat.eqb_neq in Hlen.
  rewrite pad_zeros_drop, pad_zeros_take.
  destruct (all_zeros (drop decimals decimal)) eqn:Hzeros; [|discriminate].
  destruct (checkValue _); [|discriminate]. intros [= <-].
  assert (Hvalue : value = literal negative whole point decimal).
  { unfold literal. rewrite <- Hl. symmetry. apply string_of_list_ascii_of_string. }
  rewrite Hvalue, parseFloat_literal by (assumption || lia).
  eexists. split; [reflexivity|].
  apply all_zeros_spec in Hzeros. rewrite length_drop in Hzeros.
  pose proof (take_drop decimals decimal) as Hsplit. rewrite Hzeros in Hsplit.
  assert (Hlt : length (take decimals decimal) = (decimals `min` length decimal)%nat)
    by apply length_take.
  set (T := take decimals decimal) in *.
  set (a := (length decimal - decimals)%nat) in *.
  set (b := (decimals - length decimal)%nat).
  assert (Ha : length decimal = (length T + a)%nat) by (unfold a; lia).
  assert (Hb : decimals = (length T + b)%nat) by (unfold b; lia).
  assert (HvF : digits_value 0 decimal = (digits_value 0 T * 10 ^ N.of_nat a)%N).
  { rewrite <- Hsplit at 1. rewrite digits_value_app.
    rewrite <- (app_nil_r (replicate a "0"%char)), digits_value_zeros. reflexivity. }
  assert (HvX : digits_value 0 (match whole with [] => ["0"%char] | _ => whole end
                                ++ T ++ replicate b "0"%char)
                = (digits_value 0 whole * 10 ^ N.of_nat (length T + b)
                   + digits_value 0 T * 10 ^ N.of_nat b)%N).
  { rewrite digits_value_whole, digits_value_app, digits_value_shift.
    rewrite length_app, length_replicate. f_equal.
    rewrite digits_value_app.
    rewrite <- (app_nil_r (replicate b "0"%char)), digits_value_zeros. reflexivity. }
  unfold Qeq, BigInt. cbn [Qnum Qden]. rewrite !scale10_Z, HvX.
  rewrite (digits_value_shift (digits_value 0 whole) decimal), HvF.
  assert (E : (Z.of_N ((digits_value 0 whole * 10 ^ N.of_nat (length T + a)
                       + digits_value 0 T * 10 ^ N.of_nat a))
              * 10 ^ Z.of_nat (length T + b)
              = Z.of_N (digits_value 0 whole * 10 ^ N.of_nat (length T + b)
                        + digits_value 0 T * 10 ^ N.of_nat b)
                * 10 ^ Z.of_nat (length T + a))%Z).
  { rewrite !N2Z.inj_add, !N2Z.inj_mul, !N2Z.inj_pow, !nat_N_Z.
    rewrite !Nat2Z.inj_add, !Z.pow_add_r by lia. cbn [Z.of_N]. ring. }
  rewrite <- Ha, <- Hb in E. rewrite <- ?Hb.
  destruct negative; [rewrite !Z.mul_opp_l; f_equal|]; exact E.
Qed.

Lemma parseUnits_exact_witness :
  exists q, parseFloat "12.5" = Some q /\ Qeq q (12500000 # scale10 6).
Proof. apply (parseUnits_exact "12.5" 6 12500000). vm_compute. reflexivity. Defined.

(* ===================================================================== *)
(** * Balances and sending *)
(* ===================================================================== *)

Section Sending.

Lemma trim_leading_zeros_head l c c' l' :
  trim_leading_zeros l = c :: c' :: l' -> c <> "0"%char.
Proof.
  induction l as [|x l IH]; [discriminate|].
  destruct l as [|y l]; [discriminate|].
  change (trim_leading_zeros (x :: y :: l))
    with (if Ascii.eqb x "0" then trim_leading_zeros (y :: l) else x :: y :: l).
  destruct (Ascii.eqb x "0") eqn:E; [exact IH|].
  intros [= <- <- <-]. apply Ascii.eqb_neq, E.
Qed.

(** With at least one decimal, [formatUnits] never prints "0.00": the
    decimals keep a trailing zero only when it is their single digit. *)
Lemma formatUnits_not_fallback (value : Z) (d : nat) : formatUnits value (S d) <> "0.00".
Proof.
  unfold formatUnits. intros E.
  apply (f_equal list_ascii_of_string) in E.
  rewrite list_ascii_of_string_of_list_ascii in E.
  apply (f_equal (@rev ascii)) in E.
  rewrite !rev_app_distr in E. cbn [rev app] in E.
  rewrite <- !app_assoc in E. cbn [app] in E.
  unfold trim_trailing_zeros in E. rewrite rev_involutive in E.
  set (str := replicate _ _ ++ _) in E.
  set (F := rev (drop (length str - S d) str)) in E.
  assert (HF : F <> []).
  { unfold F. intros H. apply (f_equal (@length ascii)) in H.
    rewrite length_rev, length_drop in H. cbn [length] in H.
    assert (S (S d) <= length str)%nat; [|lia].
    unfold str. rewrite length_app, length_replicate. lia. }
  pose proof (trim_leading_zeros_nonempty F HF) as HT.
  destruct (trim_leading_zeros F) as [|c [|c' T]] eqn:ET; [congruence| |].
  - cbn in E. discriminate.
  - apply trim_leading_zeros_head in ET. cbn in E. congruence.
Qed.

Lemma send_error_message error :
  code (send_error error) = None
  /\ exists c m, message (send_error error) = Some (String c m).
Proof.
  unfold send_error.
  destruct (_ || _)%bool; [cbn; eauto|].
  destruct (bool_decide _); [cbn; eauto|].
  destruct (message error) as [[|c m]|]; cbn; eauto.
Qed.

End Sending.


(** X4. [sendUSDC] returns a transaction hash only for a transfer that was
    submitted and whose confirmation wait succeeded, made to the given
    recipient for exactly the amount the string denotes; the transfer and the
    wait are the only two requests of the call. *)
Theorem sendUSDC_confirmed wallet to amount requests txHash :
  sendUSDC wallet to amount = (requests, Done txHash) ->
  exists units tx q,
    requests = [transfer_request to units; wait_request txHash]
    /\ transfer wallet to units = Done tx
    /\ TransactionResponse.wait tx = Done tt
    /\ TransactionResponse.hash tx = txHash
    /\ parseFloat amount = Some q /\ Qeq q (units # scale10 6).
Proof.
  unfold sendUSDC.
  destruct (parseUnits amount 6) as [units|e] eqn:Hunits; [|discriminate].
  destruct (transfer wallet to units) as [tx|e] eqn:Htx; [|discriminate].
  destruct (TransactionResponse.wait tx) as [[]|e] eqn:Hwait; [|discriminate].
  intros [= <- <-].
  destruct (parseUnits_exact _ _ _ Hunits) as (q & Hq & Hv).
  exists units, tx, q. auto 10.
Qed.

(** X5. An amount that does not read as a number never reaches the
    contract: [sendUSDC] makes no request and fails with the argument error
    of [parseUnits]. *)
Theorem sendUSDC_rejects_non_numeric wallet to amount :
  parseFloat amount = None ->
  exists e, sendUSDC wallet to amount = ([], Failed e)
            /\ code e = Some "INVALID_ARGUMENT".
Proof.
  intros Hnan. unfold sendUSDC.
  destruct (parseUnits amount 6) as [units|e] eqn:Hunits.
  { destruct (parseUnits_exact _ _ _ Hunits) as (q & Hq & _). congruence. }
  exists e. split; [reflexivity|].
  revert Hunits. unfold parseUnits.
  destruct (match_number (list_ascii_of_string amount))
    as [[[negative whole] decimal]|] eqn:Hmatch; [|intros [= <-]; reflexivity].
  destruct (length whole + length decimal =? 0)%nat eqn:Hlen;
    [intros [= <-]; reflexivity|].
  apply Nat.eqb_neq in Hlen.
  apply match_number_spec in Hmatch as (Hw & Hd & point & Hp & Hl).
  assert (Hvalue : amount = literal negative whole point decimal).
  { unfold literal. rewrite <- Hl. symmetry. apply string_of_list_ascii_of_string. }
  rewrite Hvalue, parseFloat_literal in Hnan by (assumption || lia). discriminate.
Qed.

Lemma sendUSDC_confirmed_witness :
  exists units tx q,
    [transfer_request bob 12500000; wait_request "0x5e"]
    = [transfer_request bob units; wait_request "0x5e"]
    /\ transfer confirming_wallet bob units = Done tx
    /\ TransactionResponse.wait tx = Done tt
    /\ TransactionResponse.hash tx = "0x5e"
    /\ parseFloat "12.5" = Some q /\ Qeq q (units # scale10 6).
Proof.
  apply (sendUSDC_confirmed confirming_wallet bob "12.5"). vm_compute. reflexivity.
Defined.

Lemma sendUSDC_rejects_non_numeric_witness :
  exists e, sendUSDC confirming_wallet bob "ten" = ([], Failed e)
            /\ code e = Some "INVALID_ARGUMENT".
Proof.
  apply (sendUSDC_rejects_non_numeric confirming_wallet bob "ten"). reflexivity.
Defined.

(** X6. Whatever error the transfer or the confirmation wait raises, the
    error [sendUSDC] throws in its place is a plain [Error] with a non-empty
    message and no code. *)
Theorem sendUSDC_error_message wallet to amount requests e :
  sendUSDC wallet to amount = (requests, Failed e) ->
  requests <> [] ->
  code e = None /\ exists c m, message e = Some (String c m).
Proof.
  unfold sendUSDC.
  destruct (parseUnits amount 6) as [units|e']; [|intros [= <- <-]; congruence].
  destruct (transfer wallet to units) as [tx|error].
  - destruct (TransactionResponse.wait tx) as [[]|error]; [discriminate|].
    intros [= <- <-] _. apply send_error_message.
  - intros [= <- <-] _. apply send_error_message.
Qed.

Lemma sendUSDC_error_message_witness :
  code (new_Error "Transaction failed. Ensure you have enough USDC and ETH.") = None
  /\ exists c m,
       message (new_Error "Transaction failed. Ensure you have enough USDC and ETH.")
       = Some (String c m).
Proof.
  apply (sendUSDC_error_message reverting_wallet bob "1"
           [transfer_request bob 1000000; wait_request "0x5e"]).
  - vm_compute. reflexivity.
  - discriminate.
Defined.

(** X7. Sending the balance as displayed sends the balance: when the
    contract reports [balance] units, [sendUSDC] called with the string
    [getUSDCBalance] returned requests a transfer of exactly [balance]
    units. *)
Theorem sendUSDC_of_displayed_balance api address (balance : Z) wallet to :
  balanceOf api address = Normal balance ->
  - 2 ^ 511 <= balance < 2 ^ 511 ->
  exists displayed requests outcome,
    getUSDCBalance api address = Normal displayed
    /\ sendUSDC wallet to displayed = (transfer_request to balance :: requests, outcome).
Proof.
  intros Hbalance Hrange. unfold getUSDCBalance. rewrite Hbalance. cbn.
  exists (formatUnits balance 6). unfold sendUSDC.
  rewrite (parseUnits_formatUnits balance 6 Hrange).
  destruct (transfer wallet to balance) as [tx|error]; [|eauto].
  destruct (TransactionResponse.wait tx); eauto.
Qed.

Lemma sendUSDC_of_displayed_balance_witness :
  exists displayed requests outcome,
    getUSDCBalance funded_api alice = Normal displayed
    /\ sendUSDC confirming_wallet bob displayed
       = (transfer_request bob 12500000 :: requests, outcome).
Proof.
  apply (sendUSDC_of_displayed_balance funded_api alice 12500000 confirming_wallet bob).
  - reflexivity.
  - split; [vm_compute; discriminate | vm_compute; reflexivity].
Defined.

(** X8. The provider is a singleton: any number of [getProvider] calls in a
    row return one and the same provider; they keep the providers constructed
    before, and construct one more exactly when none was cached and at least
    one call is made. *)
Theorem getProvider_singleton (n : nat) (m : ProviderModule) :
  exists provider,
    (getProvider_times n m).1 = replicate n provider
    /\ constructed m `prefix_of` constructed (getProvider_times n m).2
    /\ length (constructed (getProvider_times n m).2)
       = match providerInstance m, n with
         | None, S _ => S (length (constructed m))
         | _, _ => length (constructed m)
         end.
Proof.
  assert (Hcached : forall n m p, providerInstance m = Some p ->
            getProvider_times n m = (replicate n p, m)).
  { clear. induction n as [|n IH]; intros m p Hp; [reflexivity|].
    cbn [getProvider_times]. unfold getProvider at 1. rewrite Hp.
    rewrite (IH m p Hp). reflexivity. }
  destruct (providerInstance m) as [p|] eqn:Hm.
  - exists p. rewrite (Hcached n m p Hm). cbn. repeat split; reflexivity.
  - destruct n as [|n].
    + exists 0%nat. cbn. repeat split; reflexivity.
    + exists (length (constructed m)). cbn [getProvider_times].
      unfold getProvider. rewrite Hm.
      erewrite Hcached by reflexivity. cbn. rewrite length_app. cbn.
      repeat split; [apply prefix_app_r; reflexivity | lia].
Qed.

(* ===================================================================== *)
(** * Recovery phrases: what the import form passes on *)
(* ===================================================================== *)

Section Phrases.

Lemma trimStart_app l1 l2 :
  trimStart (l1 ++ l2)
  = match trimStart l1 with
    | [] => trimStart l2
    | t => t ++ l2
    end.
Proof.
  induction l1 as [|c l1 IH]; [reflexivity|]. cbn [app trimStart].
  destruct (is_space c); [exact IH|reflexivity].
Qed.

(** Trimming at the end, read from the front. *)
Lemma trimEnd_cons c l :
  rev (trimStart (rev (c :: l)))
  = match rev (trimStart (rev l)) with
    | [] => if is_space c then [] else [c]
    | t => c :: t
    end.
Proof.
  cbn [rev]. rewrite trimStart_app.
  destruct (trimStart (rev l)) as [|x t] eqn:E.
  - cbn [rev trimStart]. destruct (is_space c); reflexivity.
  - rewrite rev_app_distr. cbn [rev app].
    destruct (rev t ++ [x]) eqn:E'; [destruct (rev t); discriminate|reflexivity].
Qed.

Lemma unwords_cons w ws :
  unwords (w :: ws) = w ++ concat (map (fun w' => " "%char :: w') ws).
Proof. reflexivity. Qed.

Lemma split_words_cur_nonempty l cur :
  cur <> [] -> split_words l cur <> [].
Proof.
  revert cur. induction l as [|c l IH]; intros cur Hcur; cbn [split_words].
  - destruct cur; congruence.
  - destruct (is_space c).
    + destruct cur; [congruence|discriminate].
    + apply IH. destruct cur; discriminate.
Qed.

(** The two mutually dependent facts behind [cleanPhrase]: after a word in
    progress, and after white space that follows a word. *)
Lemma replace_spaces_words l :
  (forall cur, cur <> [] ->
      unwords (split_words l cur)
      = cur ++ replace_spaces false (rev (trimStart (rev l))))
  /\ concat (map (fun w => " "%char :: w) (split_words l []))
     = match rev (trimStart (rev l)) with
       | [] => []
       | t => " "%char :: replace_spaces true t
       end.
Proof.
  induction l as [|c l [IHword IHspace]].
  - split; [|reflexivity]. intros cur Hcur. cbn.
    destruct cur; [congruence|]. cbn. rewrite !app_nil_r. reflexivity.
  - rewrite trimEnd_cons. cbn [split_words].
    destruct (is_space c) eqn:Hc; split.
    + intros cur Hcur. destruct cur as [|x cur]; [congruence|].
      rewrite unwords_cons, IHspace.
      destruct (rev (trimStart (rev l))) as [|y t]; [reflexivity|].
      cbn [replace_spaces]. rewrite Hc. reflexivity.
    + rewrite IHspace.
      destruct (rev (trimStart (rev l))) as [|y t]; [reflexivity|].
      cbn [replace_spaces]. rewrite Hc. reflexivity.
    + intros cur Hcur. rewrite IHword by (destruct cur; discriminate).
      rewrite <- app_assoc. f_equal.
      destruct (rev (trimStart (rev l))) as [|y t]; cbn [replace_spaces app];
        rewrite Hc; reflexivity.
    + cbn [app].
      pose proof (split_words_cur_nonempty l [c] ltac:(discriminate)) as Hne.
      pose proof (IHword [c] ltac:(discriminate)) as Hw.
      destruct (split_words l [c]) as [|w ws]; [congruence|].
      cbn [map concat]. rewrite unwords_cons in Hw.
      change (" "%char :: w) with ([" "%char] ++ w). rewrite <- app_assoc, Hw.
      destruct (rev (trimStart (rev l))) as [|y t]; cbn [replace_spaces app];
        rewrite Hc; reflexivity.
Qed.

Lemma clean_words l :
  replace_spaces false (String_trim l) = unwords (split_words l []).
Proof.
  unfold String_trim. induction l as [|c l IH]; [reflexivity|].
  cbn [trimStart split_words app]. destruct (is_space c) eqn:Hc; [exact IH|].
  destruct (replace_spaces_words l) as [Hword _].
  rewrite (Hword [c]) by discriminate.
  rewrite trimEnd_cons.
  destruct (rev (trimStart (rev l))) as [|y t]; rewrite ?Hc;
    cbn [replace_spaces app]; rewrite ?Hc; reflexivity.
Qed.

(** The words are not empty, hold no white space, and together are the
    input without its white space. *)
Lemma split_words_spec l cur :
  Forall (fun c => is_space c = false) cur ->
  Forall (fun w => w <> [] /\ Forall (fun c => is_space c = false) w) (split_words l cur)
  /\ concat (split_words l cur) = cur ++ filter (fun c => is_space c = false) l.
Proof.
  revert cur. induction l as [|c l IH]; intros cur Hcur; cbn [split_words].
  - rewrite filter_nil, app_nil_r. destruct cur as [|x cur]; [split; [constructor|reflexivity]|].
    split; [constructor; [split; [discriminate|exact Hcur]|constructor]|].
    cbn. rewrite !app_nil_r. reflexivity.
  - destruct (is_space c) eqn:Hc.
    + rewrite filter_cons_False by congruence.
      destruct (IH [] ltac:(constructor)) as [Hgood Hcat].
      destruct cur as [|x cur]; [split; [exact Hgood|exact Hcat]|].
      split; [constructor; [split; [discriminate|exact Hcur]|exact Hgood]|].
      cbn [concat]. rewrite Hcat. reflexivity.
    + rewrite filter_cons_True by exact Hc.
      destruct (IH (cur ++ [c])) as [Hgood Hcat].
      { apply Forall_app. split; [exact Hcur|]. repeat constructor. exact Hc. }
      split; [exact Hgood|]. rewrite Hcat, <- app_assoc. reflexivity.
Qed.

Lemma split_words_word w rest cur :
  Forall (fun c => is_space c = false) w ->
  split_words (w ++ rest) cur = split_words rest (cur ++ w).
Proof.
  intros Hw. revert cur. induction Hw as [|c w Hc _ IH]; intros cur.
  - rewrite app_nil_r. reflexivity.
  - cbn [app split_words]. rewrite Hc, IH, <- app_assoc. reflexivity.
Qed.

Lemma split_words_joined ws cur :
  Forall (fun w => w <> [] /\ Forall (fun c => is_space c = false) w) ws ->
  cur <> [] ->
  split_words (concat (map (fun w => " "%char :: w) ws)) cur = cur :: ws.
Proof.
  intros Hws. revert cur. induction Hws as [|w ws [Hne Hw] _ IH]; intros cur Hcur.
  - cbn. destruct cur; congruence.
  - cbn [map concat app split_words].
    change (is_space " ") with true. cbv iota.
    destruct cur as [|x cur]; [congruence|]. f_equal.
    rewrite (split_words_word w _ [] Hw). cbn [app]. apply IH, Hne.
Qed.

(** Splitting what [unwords] joined gives the words back. *)
Lemma split_words_unwords ws :
  Forall (fun w => w <> [] /\ Forall (fun c => is_space c = false) w) ws ->
  split_words (unwords ws) [] = ws.
Proof.
  intros Hws. destruct Hws as [|w ws [Hne Hw] Hws]; [reflexivity|].
  rewrite unwords_cons, (split_words_word w _ [] Hw). cbn [app].
  apply split_words_joined; assumption.
Qed.

Lemma clean_idempotent l :
  replace_spaces false (String_trim (replace_spaces false (String_trim l)))
  = replace_spaces false (String_trim l).
Proof.
  rewrite !clean_words. rewrite split_words_unwords; [reflexivity|].
  apply (split_words_spec l []). constructor.
Qed.

End Phrases.

(** X9. The phrase the import form checks and passes on is the words of the
    input joined by single spaces, where the words are the maximal runs of
    characters other than white space: none is empty, none holds white space,
    and together they are the input without its white space. *)
Theorem cleanPhrase_words (phrase : string) :
  ImportWalletView.cleanPhrase phrase = string_of_list_ascii (unwords (words phrase))
  /\ Forall (fun w => w <> [] /\ Forall (fun c => is_space c = false) w) (words phrase)
  /\ concat (words phrase)
     = filter (fun c => is_space c = false) (list_ascii_of_string phrase).
Proof.
  unfold ImportWalletView.cleanPhrase, words. rewrite clean_words.
  split; [reflexivity|]. apply (split_words_spec _ []). constructor.
Qed.

(** X10. The import form treats alike two inputs with the same words in the
    same order, whatever white space surrounds and separates them. *)
Theorem handleSubmit_whitespace_insensitive fromPhrase (phrase phrase' : string) :
  words phrase = words phrase' ->
  ImportWalletView.handleSubmit fromPhrase phrase
  = ImportWalletView.handleSubmit fromPhrase phrase'.
Proof.
  intros Hwords. unfold ImportWalletView.handleSubmit, ImportWalletView.cleanPhrase.
  rewrite !clean_words. fold (words phrase). fold (words phrase').
  rewrite Hwords. reflexivity.
Qed.

Lemma handleSubmit_whitespace_insensitive_witness :
  ImportWalletView.handleSubmit fromPhrase_seed
    "  legal winner   thank year wave sausage "
  = ImportWalletView.handleSubmit fromPhrase_seed seed_phrase.
Proof.
  apply (handleSubmit_whitespace_insensitive fromPhrase_seed). vm_compute. reflexivity.
Defined.

(** X11. The import form passes on only phrases that derive a wallet, and
    passes them on clean: the phrase handed to [onImport] is the cleaned
    input, cleaning it again changes nothing, and [fromPhrase] accepts it. *)
Theorem handleSubmit_imports_valid_clean fromPhrase (phrase imported : string) :
  ImportWalletView.handleSubmit fromPhrase phrase = ImportWalletView.onImport imported ->
  imported = ImportWalletView.cleanPhrase phrase
  /\ ImportWalletView.cleanPhrase imported = imported
  /\ exists wallet, fromPhrase imported = Normal wallet.
Proof.
  unfold ImportWalletView.handleSubmit, validateMnemonic, isValidMnemonic.
  destruct (fromPhrase (ImportWalletView.cleanPhrase phrase)) as [wallet|e] eqn:Hw;
    [|discriminate].
  intros [= <-]. split; [reflexivity|]. split; [|eauto].
  unfold ImportWalletView.cleanPhrase. rewrite list_ascii_of_string_of_list_ascii.
  rewrite clean_idempotent. reflexivity.
Qed.

Lemma handleSubmit_imports_valid_clean_witness :
  seed_phrase = ImportWalletView.cleanPhrase "  legal winner   thank year wave sausage "
  /\ ImportWalletView.cleanPhrase seed_phrase = seed_phrase
  /\ exists wallet, fromPhrase_seed seed_phrase = Normal wallet.
Proof.
  apply (handleSubmit_imports_valid_clean fromPhrase_seed). vm_compute. reflexivity.
Defined.

(* ===================================================================== *)
(** * Waiting for a payment *)
(* ===================================================================== *)

(** X12. A poll reports a payment only for a change at the top of the
    history: when the newest entry has the hash recorded when the charge
    was made (or there is still no entry), the step stays as it is; and so
    it does when the head block lookup of the history fails. *)
Theorem checkPayment_no_change api sched Date_now address
        (initialTxHash : option string) (step : ChargeView.Step) :
  (forall txs, ChargeView.latestHash txs = initialTxHash ->
               ChargeView.checkPayment (Normal txs) initialTxHash step = step)
  /\ (forall e, getBlockNumber api = Throw e ->
                ChargeView.checkPayment (getRecentTransactions api sched Date_now address)
                                        initialTxHash step = step).
Proof.
  split.
  - intros [|tx txs]; cbn [ChargeView.latestHash ChargeView.checkPayment]; [reflexivity|].
    intros <-.
    rewrite (bool_decide_eq_false_2 (Some (hash tx) <> Some (hash tx)))
      by (intros H; apply H; reflexivity).
    rewrite (bool_decide_eq_false_2 (Some (hash tx) = None)) by discriminate.
    reflexivity.
  - intros e He. rewrite getRecentTransactions_spec, He. reflexivity.
Qed.

(** X13. A poll moves the step to success, and nowhere else, exactly when
    the newest entry of the fetched history is incoming and its hash is not
    the one recorded; the second test of [checkPayment] adds no case. *)
Theorem checkPayment_success fetched (initialTxHash : option string) (step : ChargeView.Step) :
  (ChargeView.checkPayment fetched initialTxHash step = ChargeView.step_success
   \/ ChargeView.checkPayment fetched initialTxHash step = step)
  /\ (ChargeView.checkPayment fetched initialTxHash step = ChargeView.step_success
      <-> step = ChargeView.step_success
          \/ exists latestTx txs,
               fetched = Normal (latestTx :: txs)
               /\ type latestTx = type_in
               /\ Some (hash latestTx) <> initialTxHash).
Proof.
  unfold ChargeView.checkPayment, ChargeView.is_in.
  destruct fetched as [[|tx txs]|e].
  - split; [auto|]. split; [auto|]. intros [H|(? & ? & [=] & _)]; exact H.
  - destruct (type tx) eqn:Htype; rewrite ?andb_false_r, ?andb_true_r.
    + destruct (decide (Some (hash tx) = initialTxHash)) as [Heq|Hne].
      * rewrite (bool_decide_eq_false_2 (Some (hash tx) <> initialTxHash))
          by (intros H; apply H, Heq).
        rewrite (bool_decide_eq_false_2 (initialTxHash = None))
          by (rewrite <- Heq; discriminate).
        split; [auto|]. split; [auto|].
        intros [H|(tx' & txs' & [= <- <-] & _ & Hne)]; [exact H|congruence].
      * rewrite (bool_decide_eq_true_2 (Some (hash tx) <> initialTxHash)) by exact Hne.
        destruct (bool_decide (initialTxHash = None)); (split; [auto|]);
          (split; [|reflexivity]); intros _; right; eauto.
    + split; [auto|]. split; [auto|].
      intros [H|(tx' & txs' & [= <- <-] & Hin & _)]; [exact H|congruence].
  - split; [auto|]. split; [auto|]. intros [H|(? & ? & [=] & _)]; exact H.
Qed.

(* ===================================================================== *)
(** * Sessions *)
(* ===================================================================== *)

Section Sessions.
Variable fromPhrase : string -> completion HDNodeWallet.

(** The three lookups never reject: each of them recovers from its errors. *)
Lemma fetch_all_fulfilled world address :
  exists usdc eth history,
    getUSDCBalance (App.api world) address = Normal usdc
    /\ getETHBalance (App.api world) address = Normal eth
    /\ getRecentTransactions (App.api world) (App.sched world) (App.Date_now world) address
       = Normal history
    /\ App.fetch_all world address = Normal (usdc, eth, history).
Proof.
  unfold App.fetch_all.
  assert (exists usdc, getUSDCBalance (App.api world) address = Normal usdc) as [usdc Hu].
  { unfold getUSDCBalance. destruct (balanceOf _ _); cbn; eauto. }
  assert (exists eth, getETHBalance (App.api world) address = Normal eth) as [eth He].
  { unfold getETHBalance. destruct (getBalance _ _); cbn; eauto. }
  assert (exists history,
             getRecentTransactions (App.api world) (App.sched world) (App.Date_now world)
                                   address = Normal history) as [history Hh].
  { rewrite getRecentTransactions_spec. destruct (getBlockNumber _); eauto. }
  exists usdc, eth, history. rewrite Hu, He, Hh. auto.
Qed.

Lemma storage_sound_cleared storage :
  App.storage_sound fromPhrase
    (delete "base_wallet_logged_in" (delete "base_wallet_mnemonic" storage)).
Proof.
  split.
  - intros m. rewrite lookup_delete_ne by discriminate.
    rewrite lookup_delete_eq. discriminate.
  - intros flag. rewrite lookup_delete_eq. discriminate.
Qed.

Lemma initializeWallet_sound world mnemonic s :
  App.wallet_matches fromPhrase s ->
  App.storage_sound fromPhrase (App.localStorage (App.initializeWallet fromPhrase world mnemonic s))
  /\ App.wallet_matches fromPhrase (App.initializeWallet fromPhrase world mnemonic s).
Proof.
  intros Hwallet. unfold App.initializeWallet, getWalletFromMnemonic.
  destruct (fromPhrase mnemonic) as [w|e] eqn:Hw.
  - destruct (getProvider (App.providers s)) as [provider providers'].
    cbn [App.localStorage]. split.
    + split.
      * intros m. rewrite lookup_insert_ne by discriminate.
        rewrite lookup_insert_eq. intros [= <-]. eauto.
      * intros flag. rewrite lookup_insert_eq. intros [= <-]. split; [reflexivity|].
        rewrite lookup_insert_ne by discriminate. rewrite lookup_insert_eq. eauto.
    + intros w'. cbn [App.wallet App.walletState wallet_address]. intros [= <-].
      cbn [wallet_address].
      destruct (fetch_all_fulfilled world (wallet_address w))
        as (usdc & eth & history & _ & _ & _ & ->).
      cbn [App.address App.mnemonic]. split; [reflexivity|].
      exists mnemonic, w. auto.
  - cbn [App.localStorage]. split; [apply storage_sound_cleared|].
    exact Hwallet.
Qed.

Lemma setView_sound v s :
  App.storage_sound fromPhrase (App.localStorage s) ->
  App.wallet_matches fromPhrase s ->
  App.storage_sound fromPhrase (App.localStorage (App.setView v s))
  /\ App.wallet_matches fromPhrase (App.setView v s).
Proof. intros Hs Hw. split; assumption. Qed.

Lemma handle_sound s event :
  App.storage_sound fromPhrase (App.localStorage s) ->
  App.wallet_matches fromPhrase s ->
  App.storage_sound fromPhrase (App.localStorage (App.handle fromPhrase s event))
  /\ App.wallet_matches fromPhrase (App.handle fromPhrase s event).
Proof.
  intros Hs Hw.
  destruct event as [world|world|world createRandom|world phrase|world| |world|world];
    cbn [App.handle].
  - unfold App.restoreSession.
    destruct (App.localStorage s !! "base_wallet_mnemonic") as [m|];
      [|apply setView_sound; assumption].
    destruct (_ && _); [apply initializeWallet_sound|apply setView_sound]; assumption.
  - unfold App.handleLogin.
    destruct (App.localStorage s !! "base_wallet_mnemonic") as [m|];
      [|apply setView_sound; assumption].
    destruct (App.truthy m); [apply initializeWallet_sound|apply setView_sound]; assumption.
  - unfold App.handleCreateWallet.
    destruct createRandom as [[m|]|e]; try (apply setView_sound; assumption).
    destruct (App.truthy m); [apply initializeWallet_sound|apply setView_sound]; assumption.
  - destruct (ImportWalletView.handleSubmit fromPhrase phrase); [|auto].
    apply initializeWallet_sound, Hw.
  - unfold App.handleRefresh. destruct (App.wallet s) as [w|] eqn:Hwallet; [|auto].
    destruct (App.truthy _); [|auto]. split; [exact Hs|].
    intros w'. cbn [App.wallet App.walletState]. intros [= <-].
    destruct (Hw w Hwallet) as (Haddr & m & w' & Hm & Hf & Ha).
    destruct (fetch_all_fulfilled world (App.address (App.walletState s)))
      as (usdc & eth & history & _ & _ & _ & ->).
    cbn [App.address App.mnemonic]. split; [exact Haddr|]. eauto.
  - split.
    + cbn [App.confirmLogout App.localStorage]. split.
      * intros m. rewrite lookup_delete_eq. discriminate.
      * intros flag. rewrite lookup_delete_ne by discriminate.
        rewrite lookup_delete_eq. discriminate.
    + intros w'. cbn. discriminate.
  - unfold App.fetchData. destruct (App.polling s); [|auto].
    destruct (getUSDCBalance _ _); cbn; [|auto].
    destruct (getETHBalance _ _); cbn; auto.
  - unfold App.refreshHistory. destruct (App.polling s); [|auto].
    destruct (getRecentTransactions _ _ _ _); auto.
Qed.

Lemma run_sound events s :
  App.storage_sound fromPhrase (App.localStorage s) ->
  App.wallet_matches fromPhrase s ->
  App.storage_sound fromPhrase (App.localStorage (App.run fromPhrase events s))
  /\ App.wallet_matches fromPhrase (App.run fromPhrase events s).
Proof.
  revert s. induction events as [|event events IH]; intros s Hs Hw; [auto|].
  cbn [App.run foldl].
  destruct (handle_sound s event Hs Hw) as [Hs' Hw']. apply IH; assumption.
Qed.

(** Once a provider is cached, no handler constructs another. *)
Lemma getProvider_at_most_one m :
  (length (constructed m) <= 1)%nat ->
  (providerInstance m = None -> constructed m = []) ->
  (length (constructed (getProvider m).2) <= 1)%nat
  /\ (providerInstance (getProvider m).2 = None -> constructed (getProvider m).2 = []).
Proof.
  intros Hlen Hnone. unfold getProvider.
  destruct (providerInstance m) as [p|] eqn:Hp; cbn.
  - rewrite Hp. auto.
  - rewrite (Hnone eq_refl). cbn. split; [lia|discriminate].
Qed.

Lemma handle_providers s event :
  (length (constructed (App.providers s)) <= 1)%nat ->
  (providerInstance (App.providers s) = None -> constructed (App.providers s) = []) ->
  (length (constructed (App.providers (App.handle fromPhrase s event))) <= 1)%nat
  /\ (providerInstance (App.providers (App.handle fromPhrase s event)) = None ->
      constructed (App.providers (App.handle fromPhrase s event)) = []).
Proof.
  intros Hlen Hnone.
  assert (Hinit : forall world m,
    (length (constructed (App.providers (App.initializeWallet fromPhrase world m s)))
     <= 1)%nat
    /\ (providerInstance (App.providers (App.initializeWallet fromPhrase world m s)) = None ->
        constructed (App.providers (App.initializeWallet fromPhrase world m s)) = [])).
  { intros world m. unfold App.initializeWallet, getWalletFromMnemonic.
    destruct (fromPhrase m) as [w|e]; [|auto].
    pose proof (getProvider_at_most_one _ Hlen Hnone) as H.
    destruct (getProvider (App.providers s)) as [provider providers']. exact H. }
  destruct event as [world|world|world createRandom|world phrase|world| |world|world];
    cbn [App.handle].
  - unfold App.restoreSession.
    destruct (App.localStorage s !! "base_wallet_mnemonic") as [m|]; [|auto].
    destruct (_ && _); [apply Hinit|auto].
  - unfold App.handleLogin.
    destruct (App.localStorage s !! "base_wallet_mnemonic") as [m|]; [|auto].
    destruct (App.truthy m); [apply Hinit|auto].
  - unfold App.handleCreateWallet.
    destruct createRandom as [[m|]|e]; auto.
    destruct (App.truthy m); [apply Hinit|auto].
  - destruct (ImportWalletView.handleSubmit fromPhrase phrase); [apply Hinit|auto].
  - unfold App.handleRefresh. destruct (App.wallet s); [|auto].
    destruct (App.truthy _); auto.
  - auto.
  - unfold App.fetchData. destruct (App.polling s); [|auto].
    destruct (getUSDCBalance _ _); cbn; [|auto].
    destruct (getETHBalance _ _); cbn; auto.
  - unfold App.refreshHistory. destruct (App.polling s); [|auto].
    destruct (getRecentTransactions _ _ _ _); auto.
Qed.

End Sessions.

(** X14. Along every sequence of session events after mounting on a sound
    storage, the stored session stays sound (a stored mnemonic derives a
    wallet; the logged-in flag is "true" and stored only beside a mnemonic)
    and the wallet in use stays the one of the wallet state shown. *)
Theorem session_sound fromPhrase (events : list App.Event) (storage : gmap string string) :
  App.storage_sound fromPhrase storage ->
  App.storage_sound fromPhrase
    (App.localStorage (App.run fromPhrase events (App.mounted storage)))
  /\ App.wallet_matches fromPhrase (App.run fromPhrase events (App.mounted storage)).
Proof.
  intros Hs. apply run_sound; [exact Hs|]. intros w. cbn. discriminate.
Qed.

(** X15. Logging out ends the session for good: the stored flag and the
    stored mnemonic are gone and the wallet is dropped, so that neither the
    login button nor a reload of the page initialises a wallet: the first
    shows the setup view, the second the login view. *)
Theorem confirmLogout_ends_session fromPhrase world (s : App.State) :
  let s' := App.confirmLogout s in
  App.localStorage s' !! "base_wallet_logged_in" = None
  /\ App.localStorage s' !! "base_wallet_mnemonic" = None
  /\ App.wallet s' = None
  /\ App.handleLogin fromPhrase world s' = App.setView App.SETUP s'
  /\ App.restoreSession fromPhrase world s' = App.setView App.LOGIN s'.
Proof.
  cbn zeta.
  assert (Hm : App.localStorage (App.confirmLogout s) !! "base_wallet_mnemonic" = None).
  { cbn [App.confirmLogout App.localStorage]. apply lookup_delete_eq. }
  assert (Hf : App.localStorage (App.confirmLogout s) !! "base_wallet_logged_in" = None).
  { cbn [App.confirmLogout App.localStorage].
    rewrite lookup_delete_ne by discriminate. apply lookup_delete_eq. }
  split; [exact Hf|]. split; [exact Hm|]. split; [reflexivity|].
  unfold App.handleLogin, App.restoreSession. rewrite Hm. auto.
Qed.


(** X17. A stored session whose mnemonic derives no wallet is discarded
    when the page loads: the login view is shown, both stored items are
    removed and no provider is constructed, and the login button then leads
    to the setup view. *)
Theorem corrupt_session_discarded fromPhrase world world' (storage : gmap string string)
        (savedMnemonic e : string) :
  storage !! "base_wallet_mnemonic" = Some savedMnemonic ->
  storage !! "base_wallet_logged_in" = Some "true" ->
  savedMnemonic <> EmptyString ->
  fromPhrase savedMnemonic = Throw e ->
  let s' := App.restoreSession fromPhrase world (App.mounted storage) in
  App.view s' = App.LOGIN
  /\ App.localStorage s' !! "base_wallet_mnemonic" = None
  /\ App.localStorage s' !! "base_wallet_logged_in" = None
  /\ App.wallet s' = None
  /\ App.providers s' = module_loaded
  /\ App.view (App.handleLogin fromPhrase world' s') = App.SETUP.
Proof.
  intros Hm Hf Hne He. cbn zeta.
  unfold App.restoreSession. cbn [App.mounted App.localStorage]. rewrite Hm, Hf.
  rewrite bool_decide_eq_true_2 by reflexivity.
  destruct savedMnemonic as [|c m]; [congruence|]. cbn [App.truthy andb].
  unfold App.initializeWallet, getWalletFromMnemonic. rewrite He.
  cbn [App.view App.localStorage App.wallet App.providers App.mounted].
  assert (H1 : delete "base_wallet_logged_in" (delete "base_wallet_mnemonic" storage)
               !! "base_wallet_mnemonic" = None).
  { rewrite lookup_delete_ne by discriminate. apply lookup_delete_eq. }
  repeat (split; [first [exact H1|apply lookup_delete_eq|reflexivity]|]).
  unfold App.handleLogin. cbn [App.localStorage]. rewrite H1. reflexivity.
Qed.

(** X18. Whatever the session events, the application constructs at most
    one provider. *)
Theorem session_single_provider fromPhrase (events : list App.Event)
        (storage : gmap string string) :
  (length (constructed (App.providers (App.run fromPhrase events (App.mounted storage))))
   <= 1)%nat.
Proof.
  enough (H : forall s,
    (length (constructed (App.providers s)) <= 1)%nat ->
    (providerInstance (App.providers s) = None -> constructed (App.providers s) = []) ->
    (length (constructed (App.providers (App.run fromPhrase events s))) <= 1)%nat).
  { apply H; cbn; [lia|reflexivity]. }
  induction events as [|event events IH]; intros s Hlen Hnone; [exact Hlen|].
  cbn [App.run foldl].
  destruct (handle_providers fromPhrase s event Hlen Hnone) as [Hlen' Hnone'].
  apply IH; assumption.
Qed.

Lemma session_sound_witness :
  App.storage_sound fromPhrase_seed
    (App.localStorage
       (App.run fromPhrase_seed
          [App.Mount busy_world;
           App.SubmitPhrase busy_world " legal  winner thank year wave sausage";
           App.Refresh offline_world; App.Logout; App.Login busy_world]
          (App.mounted saved_storage)))
  /\ App.wallet_matches fromPhrase_seed
       (App.run fromPhrase_seed
          [App.Mount busy_world;
           App.SubmitPhrase busy_world " legal  winner thank year wave sausage";
           App.Refresh offline_world; App.Logout; App.Login busy_world]
          (App.mounted saved_storage)).
Proof.
  apply (session_sound fromPhrase_seed). split.
  - intros m. unfold saved_storage.
    rewrite lookup_insert_ne by discriminate. rewrite lookup_insert_eq.
    intros [= <-]. eexists. vm_compute. reflexivity.
  - intros flag. unfold saved_storage. rewrite lookup_insert_eq. intros [= <-].
    split; [reflexivity|].
    rewrite lookup_insert_ne by discriminate. rewrite lookup_insert_eq. eauto.
Defined.


Lemma corrupt_session_discarded_witness :
  App.view (App.restoreSession fromPhrase_seed busy_world (App.mounted corrupt_storage))
  = App.LOGIN
  /\ App.view
       (App.handleLogin fromPhrase_seed offline_world
          (App.restoreSession fromPhrase_seed busy_world (App.mounted corrupt_storage)))
     = App.SETUP.
Proof.
  destruct (corrupt_session_discarded fromPhrase_seed busy_world offline_world
              corrupt_storage "lorem ipsum" "invalid mnemonic length")
    as (Hview & _ & _ & _ & _ & Hlogin).
  - reflexivity.
  - reflexivity.
  - discriminate.
  - vm_compute. reflexivity.
  - split; [exact Hview | exact Hlogin].
Defined.

(* ===================================================================== *)
(** * The history: requests and silence *)
(* ===================================================================== *)

Section HistoryMore.

Lemma ranges_from_length head i (k : nat) :
  head - i <= Z.of_nat k * CHUNK_SIZE ->
  (length (ranges_from head i) <= k)%nat.
Proof.
  revert k. funelim (ranges_from head i); intros k Hk; [|cbn; lia].
  destruct k as [|k]; [unfold CHUNK_SIZE in *; lia|].
  cbn [length]. apply le_n_S.
  match goal with IH : forall _ : nat, _ |- _ => apply IH end.
  unfold CHUNK_SIZE in *. lia.
Qed.

Lemma ranges_from_width head i range :
  range ∈ ranges_from head i -> Range.to range - Range.from range < CHUNK_SIZE.
Proof.
  funelim (ranges_from head i); [|intros H; inversion H].
  rewrite elem_of_cons. intros [->|Hin]; [cbn; unfold CHUNK_SIZE; lia|].
  match goal with IH : forall _ : Range.t, _ |- _ => exact (IH _ Hin) end.
Qed.

End HistoryMore.

(** X19. Each call asks for at most three sub-ranges per filter, so the
    first batch of three holds them all, and no sub-range spans more than
    2,500 blocks. *)
Theorem queried_ranges_bounded (head : Z) :
  (length (queried_ranges head) <= BATCH_SIZE)%nat
  /\ forall range, range ∈ queried_ranges head ->
       Range.to range - Range.from range < CHUNK_SIZE
       /\ Z.max 0 (head - SCAN_RANGE) <= Range.from range
       /\ Range.to range <= head.
Proof.
  unfold queried_ranges. split.
  - apply ranges_from_length. unfold BATCH_SIZE, SCAN_RANGE, CHUNK_SIZE. lia.
  - intros range Hin. split; [eapply ranges_from_width, Hin|].
    apply ranges_from_bounds in Hin. lia.
Qed.

(** X20. Silence is not an error: when the head block is known and every
    sub-range queried yields no event for either of the two filters of the
    account, because no transfer in it touches the account or because its
    request failed, the call returns the empty list, whatever else the
    ledger holds. *)
Theorem getRecentTransactions_no_events api sched Date_now address (head : Z) :
  getBlockNumber api = Normal head ->
  (forall filter range,
      filter = Transfer None (Some address) \/ filter = Transfer (Some address) None ->
      range ∈ queried_ranges head ->
      chunk_logs api filter range = []) ->
  getRecentTransactions api sched Date_now address = Normal [].
Proof.
  intros Hhead Hquiet. rewrite getRecentTransactions_spec, Hhead. f_equal.
  assert (Hw : forall filter,
             filter = Transfer None (Some address) \/ filter = Transfer (Some address) None ->
             window_logs api head filter = []).
  { intros filter Hfilter. unfold window_logs.
    induction (queried_ranges head) as [|range ranges IH]; [reflexivity|].
    rewrite fmap_cons. cbn [concat].
    rewrite (Hquiet filter range) by (try exact Hfilter; apply elem_of_cons; auto).
    apply IH. intros f r Hf Hr. apply Hquiet; [exact Hf|]. apply elem_of_cons. auto. }
  unfold history, merged_logs. rewrite !Hw by auto. reflexivity.
Qed.

(** The ledger of [bystander_api] holds a transfer from [bob] to [carol],
    delivered to a query for [bob] as sender; [alice] is silent on it. *)
Lemma getRecentTransactions_no_events_witness :
  queryFilter bystander_api (Transfer (Some bob) None) 2500 4999 = Normal [bob_to_carol]
  /\ getRecentTransactions bystander_api lifo wall_clock alice = Normal [].
Proof.
  split; [reflexivity|].
  apply (getRecentTransactions_no_events bystander_api lifo wall_clock alice 10000).
  - reflexivity.
  - intros filter range Hfilter Hrange.
    apply list_elem_of_In in Hrange. vm_compute in Hrange.
    destruct Hfilter as [-> | ->];
      repeat (destruct Hrange as [<-|Hrange]; [vm_compute; reflexivity|]);
      contradiction.
Defined.

(* ===================================================================== *)
(** * The strings of the balance queries *)
(* ===================================================================== *)





(** X24. While the polling effect runs, a balance poll stores what the
    lookup returned, also when it failed: the [balance] field of the wallet
    state is the string "0.00" after [fetchData] exactly when the lookup of
    the USDC balance failed, whatever the field held before; and after a
    history refresh whose head block lookup fails, the [transactions] field
    is the empty list. *)
Theorem failed_poll_resets_balance world (s : App.State) :
  App.polling s = true ->
  (App.balance (App.walletState (App.fetchData world s)) = "0.00"
   <-> exists e, balanceOf (App.api world) (App.address (App.walletState s)) = Throw e)
  /\ (forall e, getBlockNumber (App.api world) = Throw e ->
                App.transactions (App.walletState (App.refreshHistory world s)) = []).
Proof.
  intros Hpolling. unfold App.fetchData, App.refreshHistory. rewrite Hpolling. split.
  - unfold getUSDCBalance, getETHBalance.
    destruct (balanceOf _ _) as [units|e]; cbn;
      (destruct (getBalance _ _) as [wei|e']; cbn).
    + split; [|intros [? [=]]]. intros H. destruct (formatUnits_not_fallback _ _ H).
    + split; [|intros [? [=]]]. intros H. destruct (formatUnits_not_fallback _ _ H).
    + split; eauto.
    + split; eauto.
  - intros e He. rewrite getRecentTransactions_spec, He. reflexivity.
Qed.

(** The session of [saved_storage] restored while the contract reports 12.5
    USDC, then polled while the network is out of reach. *)
Lemma failed_poll_resets_balance_witness :
  App.balance
    (App.walletState
       (App.handle fromPhrase_seed (App.mounted saved_storage) (App.Mount funded_world)))
  = "12.5"
  /\ App.balance
       (App.walletState
          (App.fetchData offline_world
             (App.handle fromPhrase_seed (App.mounted saved_storage)
                         (App.Mount funded_world))))
     = "0.00".
Proof.
  split; [vm_compute; reflexivity|].
  apply (failed_poll_resets_balance offline_world
           (App.handle fromPhrase_seed (App.mounted saved_storage)
                       (App.Mount funded_world))).
  - vm_compute. reflexivity.
  - exists "network error". vm_compute. reflexivity.
Defined.
